(** * Shared utility functions of the agent-orchestrator plugins

    A shallow embedding of [shellEscape], [escapeAppleScript], [validateUrl]
    and [readLastJsonlEntry], together with the parts of the JavaScript
    runtime they call (string primitives, UTF-8 decoding, [JSON.parse], file
    handles) and the two quoting grammars the escapers target. *)

From Stdlib Require Import Strings.String Strings.Ascii Strings.Byte.
From Stdlib Require Import List NArith ZArith Bool Lia Arith.
Import ListNotations.

Local Open Scope string_scope.
Local Open Scope list_scope.
Local Open Scope N_scope.

(* ================================================================= *)
(** ** JavaScript strings *)

(** A JavaScript string is a sequence of UTF-16 code units.  The string
    methods used by the library ([replace] with a one-character global
    pattern, [split], [trim], [startsWith]) all work code unit by code unit. *)

Module Js.

Definition code_unit := N.
Definition jsstring := list code_unit.

Definition TAB : code_unit := 9.
Definition LINE_FEED : code_unit := 10.
Definition CARRIAGE_RETURN : code_unit := 13.
Definition SPACE : code_unit := 32.
Definition QUOTATION_MARK : code_unit := 34.
Definition APOSTROPHE : code_unit := 39.
Definition REVERSE_SOLIDUS : code_unit := 92.

(** Literals.  [str] reads an ASCII literal as it stands; [lit] reads it
    with every backquote standing for a double quote, which keeps the JSON
    samples below legible. *)
Definition str (s : String.string) : jsstring :=
  map Ascii.N_of_ascii (String.list_ascii_of_string s).

Definition lit (s : String.string) : jsstring :=
  map (fun c => if c =? 96 then QUOTATION_MARK else c) (str s).

Fixpoint eqb (a b : jsstring) : bool :=
  match a, b with
  | [], [] => true
  | x :: a', y :: b' => (x =? y) && eqb a' b'
  | _, _ => false
  end.

(** [s.replace(/c/g, rep)] for a pattern that matches the single code unit
    [c] and a replacement string [rep] without [$] patterns: every
    occurrence of [c], scanning left to right, is replaced by [rep]. *)
Fixpoint replace_all (c : code_unit) (rep s : jsstring) : jsstring :=
  match s with
  | [] => []
  | x :: r => (if x =? c then rep else [x]) ++ replace_all c rep r
  end.

(** [s.startsWith(p)] *)
Fixpoint startsWith (s p : jsstring) {struct p} : bool :=
  match p, s with
  | [], _ => true
  | _ :: _, [] => false
  | y :: p', x :: s' => (x =? y) && startsWith s' p'
  end.

(** [s.split(sep)] for a one-code-unit separator.  The result is never
    empty: the empty string splits into one empty piece. *)
Fixpoint split (sep : code_unit) (s : jsstring) : list jsstring :=
  match s with
  | [] => [[]]
  | x :: r =>
      if x =? sep then [] :: split sep r
      else match split sep r with
           | [] => [[x]]
           | piece :: pieces => (x :: piece) :: pieces
           end
  end.

(** ECMAScript WhiteSpace and LineTerminator code points, the ones
    [String.prototype.trim] strips.  All of them lie in the BMP. *)
Definition is_trim_space (c : code_unit) : bool :=
  (c =? 9) || (c =? 10) || (c =? 11) || (c =? 12) || (c =? 13) ||
  (c =? 32) || (c =? 160) || (c =? 5760) ||
  ((8192 <=? c) && (c <=? 8202)) ||
  (c =? 8232) || (c =? 8233) || (c =? 8239) || (c =? 8287) ||
  (c =? 12288) || (c =? 65279).

Fixpoint trimStart (s : jsstring) : jsstring :=
  match s with
  | [] => []
  | x :: r => if is_trim_space x then trimStart r else s
  end.

Definition trimEnd (s : jsstring) : jsstring := rev (trimStart (rev s)).

Definition trim (s : jsstring) : jsstring := trimEnd (trimStart s).

(** [msg.includes(x)], as a proposition *)
Definition Includes (msg x : jsstring) : Prop :=
  exists before after, msg = before ++ x ++ after.

End Js.

Import Js.

(* ================================================================= *)
(** ** The escapers and the URL guard *)

(** [shellEscape]: an apostrophe, then [arg.replace(/'/g, rep)], then an
    apostrophe.  The replacement literal [rep] of the source denotes the four
    code units apostrophe, backslash, apostrophe, apostrophe. *)
Definition shellEscape (arg : jsstring) : jsstring :=
  [APOSTROPHE]
    ++ replace_all APOSTROPHE
         [APOSTROPHE; REVERSE_SOLIDUS; APOSTROPHE; APOSTROPHE] arg
    ++ [APOSTROPHE].

(** [escapeAppleScript]: two chained global replacements.  The first turns
    each backslash into two backslashes, the second turns each double quote
    of its result into a backslash and a double quote. *)
Definition escapeAppleScript (s : jsstring) : jsstring :=
  replace_all QUOTATION_MARK [REVERSE_SOLIDUS; QUOTATION_MARK]
    (replace_all REVERSE_SOLIDUS [REVERSE_SOLIDUS; REVERSE_SOLIDUS] s).

(** A call either returns a value or throws an [Error] with a message. *)
Inductive completion (A : Type) : Type :=
| Return (a : A)
| Throw (message : jsstring).
Arguments Return {A} a.
Arguments Throw {A} message.

(** [validateUrl]: throws when [url] has neither prefix.  The message is the
    template literal of the source: [label] in square brackets, the fixed
    text, and [url] between double quotes. *)
Definition validateUrl (url label : jsstring) : completion unit :=
  if negb (startsWith url (str "https://"))
     && negb (startsWith url (str "http://"))
  then Throw (str "[" ++ label ++ str "] Invalid url: must be http(s), got "
                ++ [QUOTATION_MARK] ++ url ++ [QUOTATION_MARK])
  else Return tt.

(* ================================================================= *)
(** ** The two quoting grammars *)

(** POSIX shell word recognition (XCU 2.2 Quoting), restricted to what a
    literal word may contain: single-quoted segments, in which every
    character stands for itself up to the closing quote; an unquoted
    backslash, which makes the next character literal (and joins lines when
    that character is a newline); and unquoted ordinary characters.  An
    unquoted blank or operator would end the word and an unquoted dollar,
    backquote, double quote or pattern character starts an expansion: the
    input is then not one literal word and recognition fails. *)
Module Posix.

Inductive quoting := Unquoted | SingleQuoted.

Definition needs_quoting (c : code_unit) : bool :=
  existsb (N.eqb c)
    (str "|&;<>()$` *?[#~=%" ++ [TAB; LINE_FEED; QUOTATION_MARK]).

Fixpoint word (q : quoting) (s : jsstring) : option jsstring :=
  match q, s with
  | Unquoted, [] => Some []
  | SingleQuoted, [] => None
  | SingleQuoted, c :: r =>
      if c =? APOSTROPHE then word Unquoted r
      else option_map (cons c) (word SingleQuoted r)
  | Unquoted, c :: r =>
      if c =? APOSTROPHE then word SingleQuoted r
      else if c =? REVERSE_SOLIDUS then
        match r with
        | [] => None
        | d :: r' =>
            if d =? LINE_FEED then word Unquoted r'
            else option_map (cons d) (word Unquoted r')
        end
      else if needs_quoting c then None
      else option_map (cons c) (word Unquoted r)
  end.

(** The argument a shell passes on when the text is one word of a command. *)
Definition token (s : jsstring) : option jsstring :=
  match s with
  | [] => None
  | _ => word Unquoted s
  end.

End Posix.

(** AppleScript string literals: the text between two double quotes, where a
    backslash introduces one of the escapes for backslash, double quote,
    [n], [r] and [t], and every other character, line breaks included,
    stands for itself. *)
Module AppleScript.

Definition escape (c : code_unit) : option code_unit :=
  if c =? REVERSE_SOLIDUS then Some REVERSE_SOLIDUS
  else if c =? QUOTATION_MARK then Some QUOTATION_MARK
  else if c =? 110 then Some LINE_FEED
  else if c =? 114 then Some CARRIAGE_RETURN
  else if c =? 116 then Some TAB
  else None.

(** The characters after the opening quote, up to the closing one, which
    must end the text. *)
Fixpoint body (s : jsstring) : option jsstring :=
  match s with
  | [] => None
  | c :: r =>
      if c =? QUOTATION_MARK then
        match r with [] => Some [] | _ :: _ => None end
      else if c =? REVERSE_SOLIDUS then
        match r with
        | [] => None
        | d :: r' =>
            match escape d, body r' with
            | Some x, Some v => Some (x :: v)
            | _, _ => None
            end
        end
      else option_map (cons c) (body r)
  end.

Definition string_literal (s : jsstring) : option jsstring :=
  match s with
  | c :: r => if c =? QUOTATION_MARK then body r else None
  | [] => None
  end.

End AppleScript.

(* ================================================================= *)
(** ** UTF-8 decoding *)

(** [buffer.toString('utf-8', start, end)]: the bytes from [start] up to
    [end] are decoded as UTF-8, every maximal ill-formed subsequence is
    replaced by U+FFFD (the policy of the WHATWG decoder, which Node
    follows), a byte order mark is kept, and code points above the BMP
    become surrogate pairs. *)
Module Utf8.

Definition REPLACEMENT : N := 0xFFFD.

(** A multi-byte sequence under way: the bits gathered so far, the number
    of continuation bytes still due, and the range the next one must
    fall in. *)
Record pending := {
  code_point : N;
  bytes_due : nat;
  lower : N;
  upper : N }.

(** A byte met when no sequence is under way. *)
Definition lead (b : N) : list N * option pending :=
  if b <=? 0x7F then ([b], None)
  else if (0xC2 <=? b) && (b <=? 0xDF) then
    ([], Some {| code_point := N.land b 0x1F; bytes_due := 1;
                 lower := 0x80; upper := 0xBF |})
  else if (0xE0 <=? b) && (b <=? 0xEF) then
    ([], Some {| code_point := N.land b 0xF; bytes_due := 2;
                 lower := if b =? 0xE0 then 0xA0 else 0x80;
                 upper := if b =? 0xED then 0x9F else 0xBF |})
  else if (0xF0 <=? b) && (b <=? 0xF4) then
    ([], Some {| code_point := N.land b 0x7; bytes_due := 3;
                 lower := if b =? 0xF0 then 0x90 else 0x80;
                 upper := if b =? 0xF4 then 0x8F else 0xBF |})
  else ([REPLACEMENT], None).

Fixpoint decode (st : option pending) (bs : list N) : list N :=
  match bs with
  | [] => match st with None => [] | Some _ => [REPLACEMENT] end
  | b :: r =>
      match st with
      | None => let (out, st') := lead b in out ++ decode st' r
      | Some p =>
          if (lower p <=? b) && (b <=? upper p) then
            let cp := N.lor (N.shiftl (code_point p) 6) (N.land b 0x3F) in
            match bytes_due p with
            | S (S n) =>
                decode (Some {| code_point := cp; bytes_due := S n;
                                lower := 0x80; upper := 0xBF |}) r
            | _ => cp :: decode None r
            end
          else
            (* the sequence is cut short: U+FFFD, and the byte starts anew *)
            let (out, st') := lead b in
            REPLACEMENT :: out ++ decode st' r
      end
  end.

Definition utf16 (cp : N) : jsstring :=
  if cp <? 0x10000 then [cp]
  else [0xD800 + N.shiftr (cp - 0x10000) 10;
        0xDC00 + N.land (cp - 0x10000) 0x3FF].

Definition decode_bytes (bs : list byte) : jsstring :=
  flat_map utf16 (decode None (map Byte.to_N bs)).

Definition toString (buffer : list byte) (start end_ : N) : jsstring :=
  decode_bytes
    (firstn (N.to_nat (end_ - start)) (skipn (N.to_nat start) buffer)).

End Utf8.

(* ================================================================= *)
(** ** JSON.parse *)

Module Json.

Local Set Warnings "-register-all".

(** Parsed values.  A number keeps its source text: its value is a double
    that nothing here looks at.  An object keeps its members in source
    order, repeated keys included. *)
Inductive value : Type :=
| JNull
| JBool (b : bool)
| JNumber (text : jsstring)
| JString (s : jsstring)
| JArray (elements : list value)
| JObject (members : list (jsstring * value)).

Inductive result (A : Type) : Type :=
| Parsed (a : A) (rest : jsstring)
| SyntaxError
| OutOfFuel.
Arguments Parsed {A} a rest.
Arguments SyntaxError {A}.
Arguments OutOfFuel {A}.

(** JSON white space: tab, line feed, carriage return, space. *)
Definition is_ws (c : code_unit) : bool :=
  (c =? 9) || (c =? 10) || (c =? 13) || (c =? 32).

Fixpoint skip_ws (s : jsstring) : jsstring :=
  match s with
  | [] => []
  | c :: r => if is_ws c then skip_ws r else s
  end.

Definition is_digit (c : code_unit) : bool := (48 <=? c) && (c <=? 57).

Fixpoint digits (s : jsstring) : jsstring * jsstring :=
  match s with
  | [] => ([], [])
  | c :: r =>
      if is_digit c then let (ds, rest) := digits r in (c :: ds, rest)
      else ([], s)
  end.

Definition hex (c : code_unit) : option N :=
  if is_digit c then Some (c - 48)
  else if (65 <=? c) && (c <=? 70) then Some (c - 55)
  else if (97 <=? c) && (c <=? 102) then Some (c - 87)
  else None.

Definition hex4 (a b c d : code_unit) : option code_unit :=
  match hex a, hex b, hex c, hex d with
  | Some x, Some y, Some z, Some w => Some (((x * 16 + y) * 16 + z) * 16 + w)
  | _, _, _, _ => None
  end.

(** The character after a backslash, [u] apart. *)
Definition escape (c : code_unit) : option code_unit :=
  if c =? 34 then Some 34
  else if c =? 92 then Some 92
  else if c =? 47 then Some 47
  else if c =? 98 then Some 8
  else if c =? 102 then Some 12
  else if c =? 110 then Some 10
  else if c =? 114 then Some 13
  else if c =? 116 then Some 9
  else None.

(** The rest of a string after its opening quote.  Control characters
    below U+0020 are not allowed unescaped. *)
Fixpoint string_body (s : jsstring) : option (jsstring * jsstring) :=
  match s with
  | [] => None
  | c :: r =>
      if c =? 34 then Some ([], r)
      else if c =? 92 then
        match r with
        | [] => None
        | e :: r1 =>
            if e =? 117 then
              match r1 with
              | h1 :: h2 :: h3 :: h4 :: r2 =>
                  match hex4 h1 h2 h3 h4, string_body r2 with
                  | Some x, Some (v, rest) => Some (x :: v, rest)
                  | _, _ => None
                  end
              | _ => None
              end
            else
              match escape e, string_body r1 with
              | Some x, Some (v, rest) => Some (x :: v, rest)
              | _, _ => None
              end
        end
      else if c <? 32 then None
      else
        match string_body r with
        | Some (v, rest) => Some (c :: v, rest)
        | None => None
        end
  end.

(** Numbers: an optional minus, an integer part without a superfluous
    leading zero, an optional fraction, an optional exponent. *)
Definition int_part (s : jsstring) : option (jsstring * jsstring) :=
  match s with
  | [] => None
  | c :: r =>
      if c =? 48 then Some ([c], r)
      else if is_digit c then let (ds, rest) := digits r in Some (c :: ds, rest)
      else None
  end.

Definition frac_part (s : jsstring) : option (jsstring * jsstring) :=
  match s with
  | c :: r =>
      if c =? 46 then
        match digits r with
        | ([], _) => None
        | (ds, rest) => Some (c :: ds, rest)
        end
      else Some ([], s)
  | [] => Some ([], s)
  end.

Definition exp_digits (pre r : jsstring) : option (jsstring * jsstring) :=
  match digits r with
  | ([], _) => None
  | (ds, rest) => Some (pre ++ ds, rest)
  end.

Definition exp_part (s : jsstring) : option (jsstring * jsstring) :=
  match s with
  | c :: r =>
      if (c =? 101) || (c =? 69) then
        match r with
        | sgn :: r' =>
            if (sgn =? 43) || (sgn =? 45) then exp_digits [c; sgn] r'
            else exp_digits [c] r
        | [] => None
        end
      else Some ([], s)
  | [] => Some ([], s)
  end.

Definition unsigned (s : jsstring) : option (jsstring * jsstring) :=
  match int_part s with
  | None => None
  | Some (i, s1) =>
      match frac_part s1 with
      | None => None
      | Some (f, s2) =>
          match exp_part s2 with
          | None => None
          | Some (e, s3) => Some (i ++ f ++ e, s3)
          end
      end
  end.

Definition number (s : jsstring) : option (jsstring * jsstring) :=
  match s with
  | c :: r =>
      if c =? 45 then
        match unsigned r with
        | Some (t, rest) => Some (c :: t, rest)
        | None => None
        end
      else unsigned s
  | [] => None
  end.

(** [keyword w v s]: the literal [w], standing for [v], at the head of [s]. *)
Definition keyword (w : jsstring) (v : value) (s : jsstring) : result value :=
  if startsWith s w then Parsed v (skipn (length w) s) else SyntaxError.

(** [expect c s]: the input after the token [c], white space skipped. *)
Definition expect (c : code_unit) (s : jsstring) : option jsstring :=
  match skip_ws s with
  | x :: r => if x =? c then Some r else None
  | [] => None
  end.

(** Recursive descent on the JSON grammar.  [parse_value] reads one value
    after optional white space; [parse_elements] and [parse_members] read
    what follows an opening bracket or brace when the container is not
    empty, and so refuse a trailing comma.  The fuel bounds the depth of
    the calls; [fuel_for] is enough for any input (lemma
    [parse_value_fuel]). *)
Fixpoint parse_value (fuel : nat) (s : jsstring) : result value :=
  match fuel with
  | O => OutOfFuel
  | S fuel =>
      match skip_ws s with
      | [] => SyntaxError
      | c :: r =>
          if c =? 123 then
            match expect 125 r with
            | Some rest => Parsed (JObject []) rest
            | None => parse_members fuel r []
            end
          else if c =? 91 then
            match expect 93 r with
            | Some rest => Parsed (JArray []) rest
            | None => parse_elements fuel r []
            end
          else if c =? 34 then
            match string_body r with
            | Some (v, rest) => Parsed (JString v) rest
            | None => SyntaxError
            end
          else if c =? 116 then keyword (str "true") (JBool true) (c :: r)
          else if c =? 102 then keyword (str "false") (JBool false) (c :: r)
          else if c =? 110 then keyword (str "null") JNull (c :: r)
          else
            match number (c :: r) with
            | Some (t, rest) => Parsed (JNumber t) rest
            | None => SyntaxError
            end
      end
  end

with parse_elements (fuel : nat) (s : jsstring) (seen : list value)
  : result value :=
  match fuel with
  | O => OutOfFuel
  | S fuel =>
      match parse_value fuel s with
      | Parsed v r =>
          match skip_ws r with
          | c :: rest =>
              if c =? 44 then parse_elements fuel rest (seen ++ [v])
              else if c =? 93 then Parsed (JArray (seen ++ [v])) rest
              else SyntaxError
          | [] => SyntaxError
          end
      | SyntaxError => SyntaxError
      | OutOfFuel => OutOfFuel
      end
  end

with parse_members (fuel : nat) (s : jsstring)
       (seen : list (jsstring * value)) : result value :=
  match fuel with
  | O => OutOfFuel
  | S fuel =>
      match expect 34 s with
      | None => SyntaxError
      | Some r0 =>
          match string_body r0 with
          | None => SyntaxError
          | Some (k, r1) =>
              match expect 58 r1 with
              | None => SyntaxError
              | Some r2 =>
                  match parse_value fuel r2 with
                  | Parsed v r3 =>
                      match skip_ws r3 with
                      | c :: rest =>
                          if c =? 44 then
                            parse_members fuel rest (seen ++ [(k, v)])
                          else if c =? 125 then
                            Parsed (JObject (seen ++ [(k, v)])) rest
                          else SyntaxError
                      | [] => SyntaxError
                      end
                  | SyntaxError => SyntaxError
                  | OutOfFuel => OutOfFuel
                  end
              end
          end
      end
  end.

Definition fuel_for (s : jsstring) : nat := S (2 * length s).

(** [JSON.parse(text)] without a reviver: one value, white space around it
    and nothing else.  [None] stands for the [SyntaxError] it throws. *)
Definition parse (text : jsstring) : option value :=
  match parse_value (fuel_for text) text with
  | Parsed v rest =>
      match skip_ws rest with
      | [] => Some v
      | _ :: _ => None
      end
  | SyntaxError | OutOfFuel => None
  end.

(** [obj[key]] on a parsed object.  [JSON.parse] defines the members in
    source order as own data properties, so a repeated key holds the value
    given last; a key that does not occur is looked up on
    [Object.prototype], which has no property named [type]. *)
Fixpoint get (key : jsstring) (members : list (jsstring * value))
  : option value :=
  match members with
  | [] => None
  | (k, v) :: r =>
      match get key r with
      | Some later => Some later
      | None => if Js.eqb k key then Some v else None
      end
  end.

End Json.

(* ================================================================= *)
(** ** File handles *)

(** What [open], [FileHandle.stat], [FileHandle.read] and
    [FileHandle.close] of node:fs/promises can do, seen from one call of the
    reader: each either succeeds or rejects with a system error.  A
    computation carries the list of calls it made, in order, and ends with a
    value or a rejection. *)
Module Fs.

Inductive errno := ENOENT | EACCES | EISDIR | EIO.

Inductive outcome (A : Type) : Type :=
| Ok (a : A)
| Rejected (e : errno).
Arguments Ok {A} a.
Arguments Rejected {A} e.

Definition Date := Z.

Record Stats := { size : N; mtime : Date }.

(** An open handle: what [stat] answers, the bytes a [read] finds in the
    file, and whether [read] and [close] fail.  The answer of [stat] and
    the bytes are independent, as they are for a directory or for a file
    that another process rewrites between the two calls. *)
Record FileHandle := {
  stat_result : outcome Stats;
  bytes : list byte;
  read_error : option errno;
  close_error : option errno }.

(** [open(path, 'r')] for every path. *)
Definition FileSystem := jsstring -> outcome FileHandle.

Inductive call :=
| Open (path : jsstring)
| Stat
| Read (length position : N)
| Close.

Definition io (A : Type) : Type := list call * outcome A.

Definition ret {A} (a : A) : io A := ([], Ok a).

Definition bind {A B} (m : io A) (k : A -> io B) : io B :=
  match m with
  | (t, Ok a) => let (t', r) := k a in (t ++ t', r)
  | (t, Rejected e) => (t, Rejected e)
  end.

(** [try { m } catch { h }] *)
Definition catch {A} (m : io A) (h : io A) : io A :=
  match m with
  | (t, Ok a) => (t, Ok a)
  | (t, Rejected _) => let (t', r) := h in (t ++ t', r)
  end.

(** The outcome of [m] as a value: what a [catch] block gets to see. *)
Definition attempt {A} (m : io A) : io (outcome A) :=
  (fst m, Ok (snd m)).

Definition open (fs : FileSystem) (path : jsstring) : io FileHandle :=
  ([Open path], fs path).

Definition stat (fh : FileHandle) : io Stats :=
  ([Stat], stat_result fh).

Definition Buffer := list byte.

(** [Buffer.alloc(n)]: [n] zero bytes. *)
Definition alloc (n : N) : Buffer := repeat x00 (N.to_nat n).

(** The bytes a [read] of [length] bytes at [position] gets from the file:
    fewer than [length] when the file ends before. *)
Definition bytes_at (fh : FileHandle) (length position : N) : list byte :=
  firstn (N.to_nat length) (skipn (N.to_nat position) (bytes fh)).

(** [fh.read(buffer, 0, length, position)]: the bytes found are written at
    the start of [buffer]; the value is their number, [bytesRead], with the
    buffer as it is afterwards. *)
Definition read (fh : FileHandle) (buffer : Buffer) (length position : N)
  : io (N * Buffer) :=
  ([Read length position],
   match read_error fh with
   | Some e => Rejected e
   | None =>
       let found := bytes_at fh length position in
       Ok (N.of_nat (List.length found),
           found ++ skipn (List.length found) buffer)
   end).

Definition close (fh : FileHandle) : io unit :=
  ([Close],
   match close_error fh with
   | Some e => Rejected e
   | None => Ok tt
   end).

(** A regular file that nobody touches during the call. *)
Definition regular (content : list byte) (modified : Date) : FileHandle :=
  {| stat_result := Ok {| size := N.of_nat (List.length content);
                          mtime := modified |};
     bytes := content;
     read_error := None;
     close_error := None |}.

(** A file system with one entry. *)
Definition only (path : jsstring) (entry : outcome FileHandle) : FileSystem :=
  fun p => if Js.eqb p path then entry else Rejected ENOENT.

(** The bytes of an ASCII text. *)
Definition ascii (s : jsstring) : list byte :=
  map (fun c => match Byte.of_N c with Some b => b | None => x00 end) s.

End Fs.

Notation "x <- m ;; k" := (Fs.bind m (fun x => k))
  (at level 61, m at next level, right associativity).

(* ================================================================= *)
(** ** The tail reader *)

Definition TAIL_READ_BYTES : N := 4096.

(** The resolved value of [readLastJsonlEntry] when it is not [null]. *)
Record TailResult := {
  lastType : option jsstring;
  modifiedAt : Fs.Date }.

(** One turn of the loop on [line]: [Some t] when the turn returns with
    [lastType: t], [None] when it goes on to the next line, be it through a
    [continue], through the [catch] around [JSON.parse] or by falling out of
    the two [if]s. *)
Definition entry_type (line : jsstring) : option jsstring :=
  match line with
  | [] => None
  | _ :: _ =>
      let trimmed := trim line in
      match trimmed with
      | [] => None
      | _ :: _ =>
          match Json.parse trimmed with
          | Some (Json.JObject obj) =>
              match Json.get (str "type") obj with
              | Some (Json.JString t) => Some t
              | _ => None
              end
          | _ => None
          end
      end
  end.

(** [for (let i = n - 1; i >= 0; i--)] over [lines]: the type returned from
    inside the loop, or [None] when the loop runs to its end. *)
Fixpoint scan (lines : list jsstring) (n : nat) : option jsstring :=
  match n with
  | O => None
  | S i =>
      match entry_type (nth i lines []) with
      | Some t => Some t
      | None => scan lines i
      end
  end.

(** The statements of the [try] block that follow [open]. *)
Definition read_tail (fh : Fs.FileHandle) : Fs.io (option TailResult) :=
  fileStat <- Fs.stat fh ;;
  let size := Fs.size fileStat in
  if size =? 0 then Fs.ret None
  else
    let readSize := N.min TAIL_READ_BYTES size in
    let buffer := Fs.alloc readSize in
    filled <- Fs.read fh buffer readSize (size - readSize) ;;
    let (bytesRead, buffer) := filled in
    let chunk := Utf8.toString buffer 0 bytesRead in
    let lines := split LINE_FEED chunk in
    Fs.ret (Some {| lastType := scan lines (length lines);
                    modifiedAt := Fs.mtime fileStat |}).

(** [readLastJsonlEntry]: the promise resolves with [null] ([Ok None]) or a
    result, or rejects.  When [open] fails the [catch] block answers [null]
    and there is no handle to close; otherwise the handle is closed after
    the [try] and [catch] blocks, and a failing [close] rejects the call. *)
Definition readLastJsonlEntry (fs : Fs.FileSystem) (filePath : jsstring)
  : Fs.io (option TailResult) :=
  opened <- Fs.attempt (Fs.open fs filePath) ;;
  match opened with
  | Fs.Rejected _ => Fs.ret None
  | Fs.Ok fh =>
      answer <- Fs.catch (read_tail fh) (Fs.ret None) ;;
      _ <- Fs.close fh ;;
      Fs.ret answer
  end.

(** The loop as [readLastJsonlEntry] starts it, from the last line. *)
Definition scan_all (lines : list jsstring) : option jsstring :=
  scan lines (length lines).

(** The bytes the reader asks for, given the size [stat] reported. *)
Definition tail_window (size : N) (content : list byte) : list byte :=
  let readSize := N.min TAIL_READ_BYTES size in
  firstn (N.to_nat readSize) (skipn (N.to_nat (size - readSize)) content).

(** The lines the loop walks over. *)
Definition window_lines (size : N) (content : list byte) : list jsstring :=
  split LINE_FEED (Utf8.decode_bytes (tail_window size content)).

(** The [(length, position)] of every [read] in a list of calls. *)
Fixpoint reads (calls : list Fs.call) : list (N * N) :=
  match calls with
  | [] => []
  | Fs.Read len pos :: r => (len, pos) :: reads r
  | _ :: r => reads r
  end.

Definition bytes_requested (calls : list Fs.call) : N :=
  fold_right (fun r acc => fst r + acc) 0 (reads calls).

(* ================================================================= *)
(** ** The behaviour the design document words *)

(** Each definition of this module follows a sentence of the document, not
    the code; the theorems below compare the two. *)
Module Spec.

(** Every embedded single quote becomes the four-character sequence that
    closes the quoted segment, emits a backslash-escaped quote and reopens
    quoting. *)
Fixpoint quotes_reopened (s : jsstring) : jsstring :=
  match s with
  | [] => []
  | c :: r =>
      if c =? APOSTROPHE
      then APOSTROPHE :: REVERSE_SOLIDUS :: APOSTROPHE :: APOSTROPHE
             :: quotes_reopened r
      else c :: quotes_reopened r
  end.

(** Every backslash becomes two backslashes. *)
Fixpoint backslashes_doubled (s : jsstring) : jsstring :=
  match s with
  | [] => []
  | c :: r =>
      if c =? REVERSE_SOLIDUS
      then REVERSE_SOLIDUS :: REVERSE_SOLIDUS :: backslashes_doubled r
      else c :: backslashes_doubled r
  end.

(** Every double quote becomes a backslash followed by a double quote. *)
Fixpoint quotes_escaped (s : jsstring) : jsstring :=
  match s with
  | [] => []
  | c :: r =>
      if c =? QUOTATION_MARK
      then REVERSE_SOLIDUS :: QUOTATION_MARK :: quotes_escaped r
      else c :: quotes_escaped r
  end.

(** A character the AppleScript escaper has nothing to do with. *)
Definition plain (c : code_unit) : bool :=
  negb (c =? REVERSE_SOLIDUS) && negb (c =? QUOTATION_MARK).

(** What becomes of one character: a plain one stays, the other two get
    a backslash in front. *)
Definition escaped_unit (c : code_unit) : jsstring :=
  if plain c then [c] else [REVERSE_SOLIDUS; c].

(** [s] begins with [p]. *)
Definition BeginsWith (s p : jsstring) : Prop := exists r, s = p ++ r.

(** [line], the white space around it set aside, parses as a JSON object
    (so neither [null] nor an array) whose [type] is the string [t]. *)
Definition typed_record (line t : jsstring) : Prop :=
  exists obj,
    Json.parse (trim line) = Some (Json.JObject obj) /\
    Json.get (str "type") obj = Some (Json.JString t).

Definition untyped (line : jsstring) : Prop :=
  forall t, ~ typed_record line t.

(** The first line, in the order given, on which a turn of the loop
    returns. *)
Fixpoint first_entry (lines : list jsstring) : option jsstring :=
  match lines with
  | [] => None
  | l :: r =>
      match entry_type l with
      | Some t => Some t
      | None => first_entry r
      end
  end.

End Spec.

(* ================================================================= *)
(** ** Sample files *)

Module Samples.

Definition log_path : jsstring := str "/var/log/agent/events.jsonl".

Definition modified : Fs.Date := 1700000000000%Z.

Definition NL : jsstring := [LINE_FEED].

(** Two records, each ended by a line feed. *)
Definition two_records : list byte :=
  Fs.ascii (lit "{`type`:`a`}" ++ NL ++ lit "{`type`:`b`}" ++ NL).

(** The second record was being written when the writer stopped. *)
Definition torn_record : list byte :=
  Fs.ascii (lit "{`type`:`a`}" ++ NL ++ lit "{`type`:`b`").

(** One typed record, then 5100 bytes of records without a type. *)
Definition typed_then_ticks : list byte :=
  Fs.ascii (lit "{`type`:`a`}" ++ NL
              ++ concat (repeat (lit "{`event`:`tick`}" ++ NL) 300)).

(** Two records written without a line feed between them, then 4080
    bytes of records without a type: the last 4096 bytes begin at the
    brace of the second record. *)
Definition glued_records : list byte :=
  Fs.ascii (lit "{`type`:`old`}{`type`:`frag`}" ++ NL
              ++ concat (repeat (lit "{`event`:`tick`}" ++ NL) 240)).

(** A directory: it opens and answers [stat], and [read] fails. *)
Definition directory : Fs.FileHandle :=
  {| Fs.stat_result := Fs.Ok {| Fs.size := 4096; Fs.mtime := modified |};
     Fs.bytes := [];
     Fs.read_error := Some Fs.EISDIR;
     Fs.close_error := None |}.

Definition disk (fh : Fs.FileHandle) : Fs.FileSystem :=
  Fs.only log_path (Fs.Ok fh).

Definition file (content : list byte) : Fs.FileSystem :=
  disk (Fs.regular content modified).

End Samples.

(* ================================================================= *)
(** ** Arrays of strings *)

Module JsArray.

(** [parts.join(sep)] *)
Fixpoint join (sep : jsstring) (parts : list jsstring) : jsstring :=
  match parts with
  | [] => []
  | [p] => p
  | p :: rest => p ++ sep ++ join sep rest
  end.

End JsArray.

(* ================================================================= *)
(** ** Command lines and scripts around the escaped text *)

(** A shell command line made of literal words: the words of [Posix.word],
    separated by blanks.  [current] is the word under way, if any; a pair
    of quotes with nothing between them is a word, the empty one. *)
Module CommandLine.

Definition push (current : option jsstring) (c : code_unit) : option jsstring :=
  match current with
  | None => Some [c]
  | Some w => Some (w ++ [c])
  end.

Definition is_blank (c : code_unit) : bool := (c =? SPACE) || (c =? TAB).

Fixpoint scan_words (q : Posix.quoting) (current : option jsstring)
    (s : jsstring) : option (list jsstring) :=
  match q, s with
  | Posix.Unquoted, [] =>
      Some match current with None => [] | Some w => [w] end
  | Posix.SingleQuoted, [] => None
  | Posix.SingleQuoted, c :: r =>
      if c =? APOSTROPHE then scan_words Posix.Unquoted current r
      else scan_words Posix.SingleQuoted (push current c) r
  | Posix.Unquoted, c :: r =>
      if c =? APOSTROPHE then
        scan_words Posix.SingleQuoted
          (Some match current with None => [] | Some w => w end) r
      else if c =? REVERSE_SOLIDUS then
        match r with
        | [] => None
        | d :: r' =>
            if d =? LINE_FEED then scan_words Posix.Unquoted current r'
            else scan_words Posix.Unquoted (push current d) r'
        end
      else if is_blank c then
        match current with
        | None => scan_words Posix.Unquoted None r
        | Some w => option_map (cons w) (scan_words Posix.Unquoted None r)
        end
      else if Posix.needs_quoting c then None
      else scan_words Posix.Unquoted (push current c) r
  end.

(** The arguments a shell passes on for a command line of literal words. *)
Definition words (s : jsstring) : option (list jsstring) :=
  scan_words Posix.Unquoted None s.

End CommandLine.

(** An AppleScript string literal at the head of a longer script: its value
    and the script text that follows its closing quote. *)
Module Embedded.

Fixpoint body (s : jsstring) : option (jsstring * jsstring) :=
  match s with
  | [] => None
  | c :: r =>
      if c =? QUOTATION_MARK then Some ([], r)
      else if c =? REVERSE_SOLIDUS then
        match r with
        | [] => None
        | d :: r' =>
            match AppleScript.escape d, body r' with
            | Some x, Some (v, rest) => Some (x :: v, rest)
            | _, _ => None
            end
        end
      else
        match body r with
        | Some (v, rest) => Some (c :: v, rest)
        | None => None
        end
  end.

Definition string_literal (s : jsstring) : option (jsstring * jsstring) :=
  match s with
  | c :: r => if c =? QUOTATION_MARK then body r else None
  | [] => None
  end.

End Embedded.

(* ================================================================= *)
(** ** The GitHub tracker plugin *)

Module Tracker.

(** One attempt of the regular expression [/\/issues\/(\d+)/] at the head of
    [s]: the text of the group, the longest run of ASCII digits after the
    literal, which must not be empty. *)
Definition issues_at (s : jsstring) : option jsstring :=
  if startsWith s (str "/issues/") then
    match Json.digits (skipn 8 s) with
    | ([], _) => None
    | (ds, _) => Some ds
    end
  else None.

(** [s.match(/\/issues\/(\d+)/)]: the attempt is made at every index from
    the left and the first success wins; the value is [match[1]], [None]
    standing for a [null] match. *)
Fixpoint issues_number (s : jsstring) : option jsstring :=
  match issues_at s with
  | Some ds => Some ds
  | None =>
      match s with
      | [] => None
      | _ :: r => issues_number r
      end
  end.

(** [s.replace(/^#/, '')]: a number sign at the very start is removed. *)
Definition strip_hash (s : jsstring) : jsstring :=
  match s with
  | c :: r => if c =? 35 then r else s
  | [] => []
  end.

(** Of [ProjectConfig] the plugin reads the [repo] field only. *)
Record ProjectConfig := { repo : jsstring }.

Definition extractIssueNumber (identifier : jsstring) : jsstring :=
  if startsWith identifier (str "http") then
    match issues_number identifier with
    | Some group => group
    | None => identifier
    end
  else strip_hash identifier.

Definition issueViewArgs (identifier repo fields : jsstring)
  : list jsstring :=
  let args := [str "issue"; str "view"; identifier] in
  let args :=
    if negb (startsWith identifier (str "http"))
    then args ++ [str "--repo"; repo]
    else args in
  args ++ [str "--json"; fields].

Definition issueUrl (identifier : jsstring) (project : ProjectConfig)
  : jsstring :=
  if startsWith identifier (str "http") then identifier
  else
    let num := strip_hash identifier in
    str "https://github.com/" ++ repo project ++ str "/issues/" ++ num.

Definition issueLabel (url : jsstring) (_project : ProjectConfig)
  : jsstring :=
  match issues_number url with
  | Some group => str "#" ++ group
  | None =>
      let parts := split 47 url in
      let lastPart := nth (length parts - 1) parts [] in
      match lastPart with
      | _ :: _ => str "#" ++ lastPart
      | [] => url
      end
  end.

Definition branchName (identifier : jsstring) (_project : ProjectConfig)
  : jsstring :=
  let num := extractIssueNumber identifier in
  str "feat/issue-" ++ num.

(** Of [IssueUpdate] the plugin reads four optional fields; [None] stands
    for a field that is absent.  [state] is compared with two strings, so
    any other string is carried as it is. *)
Record IssueUpdate := {
  state : option jsstring;
  labels : option (list jsstring);
  assignee : option jsstring;
  comment : option jsstring }.

(** A non-empty array, as in [update.labels && update.labels.length > 0] *)
Definition some_labels (l : option (list jsstring)) : bool :=
  match l with
  | Some (_ :: _) => true
  | _ => false
  end.

(** A string that is present and not empty, as in [if (update.comment)] *)
Definition truthy (s : option jsstring) : bool :=
  match s with
  | Some (_ :: _) => true
  | _ => false
  end.

Definition text (s : option jsstring) : jsstring :=
  match s with Some t => t | None => [] end.

Definition items (l : option (list jsstring)) : list jsstring :=
  match l with Some t => t | None => [] end.

Section Gh.

(** The world outside the process, and the promisified [execFile] run on
    the [gh] program: it changes the world and either delivers the standard
    output or fails with an error, of which the message is kept. *)
Variable World : Type.
Variable execFile :
  jsstring -> list jsstring -> World -> World * (jsstring + jsstring).

(** A computation that runs commands: from a world, the next world, the
    argument lists of the [gh] commands run, in order, and a completion. *)
Definition Proc (A : Type) : Type :=
  World -> World * list (list jsstring) * completion A.

Definition ret {A} (a : A) : Proc A := fun w => (w, [], Return a).

Definition bind {A B} (m : Proc A) (k : A -> Proc B) : Proc B :=
  fun w =>
    match m w with
    | (w1, ran, Return a) =>
        match k a w1 with
        | (w2, ran', r) => (w2, ran ++ ran', r)
        end
    | (w1, ran, Throw message) => (w1, ran, Throw message)
    end.

(** [gh]: the trimmed standard output, or an error that names the first
    three arguments and carries the message of the cause. *)
Definition gh (args : list jsstring) : Proc jsstring :=
  fun w =>
    match execFile (str "gh") args w with
    | (w', inl stdout) => (w', [args], Return (trim stdout))
    | (w', inr message) =>
        (w', [args],
         Throw (str "gh " ++ JsArray.join (str " ") (firstn 3 args)
                  ++ str " failed: " ++ message))
    end.

(** [when c m]: an [if] without [else] around an awaited command. *)
Definition when (c : bool) (m : Proc jsstring) : Proc unit :=
  if c then bind m (fun _ => ret tt) else ret tt.

Definition updateIssue (identifier : jsstring) (update : IssueUpdate)
    (project : ProjectConfig) : Proc unit :=
  bind
    (if Js.eqb (text (state update)) (str "closed")
     then bind (gh [str "issue"; str "close"; identifier;
                    str "--repo"; repo project]) (fun _ => ret tt)
     else if Js.eqb (text (state update)) (str "open")
     then bind (gh [str "issue"; str "reopen"; identifier;
                    str "--repo"; repo project]) (fun _ => ret tt)
     else ret tt)
    (fun _ =>
  bind
    (when (some_labels (labels update))
       (gh [str "issue"; str "edit"; identifier; str "--repo"; repo project;
            str "--add-label";
            JsArray.join (str ",") (items (labels update))]))
    (fun _ =>
  bind
    (when (truthy (assignee update))
       (gh [str "issue"; str "edit"; identifier; str "--repo"; repo project;
            str "--add-assignee"; text (assignee update)]))
    (fun _ =>
    when (truthy (comment update))
      (gh [str "issue"; str "comment"; identifier; str "--repo"; repo project;
           str "--body"; text (comment update)])))).

End Gh.

End Tracker.

(* ================================================================= *)
(** ** Shapes of texts and states *)

Module Shape.

(** The states the UTF-8 decoder can be in between two bytes: none, or a
    sequence under way that expects a continuation byte next. *)
Definition awaits_continuation (st : option Utf8.pending) : Prop :=
  match st with
  | Some p => 0x80 <= Utf8.lower p
  | None => True
  end.

(** A text of ASCII digits only. *)
Definition all_digits (n : jsstring) : Prop :=
  Forall (fun c => Json.is_digit c = true) n.

(** A text of white space only, as [trim] sees it. *)
Definition white (s : jsstring) : Prop :=
  Forall (fun c => is_trim_space c = true) s.

End Shape.

(** Two worlds to run the tracker in: each counts the commands run; in the
    first every command fails, in the second every command succeeds. *)
Module Worlds.

Definition failing (_ : jsstring) (_ : list jsstring) (n : nat)
  : nat * (jsstring + jsstring) := (S n, inr (str "HTTP 404")).

Definition succeeding (_ : jsstring) (_ : list jsstring) (n : nat)
  : nat * (jsstring + jsstring) := (S n, inl (str "ok ")).

Definition project : Tracker.ProjectConfig :=
  {| Tracker.repo := str "acme/agents" |}.

End Worlds.

(** One typed record on a line of its own, then the log of the two glued
    records: 4123 bytes, of which the last 4096 begin at the brace of the
    second glued record. *)
Module MoreSamples.

Definition typed_then_glued : list byte :=
  Fs.ascii (lit "{`type`:`a`}") ++ x0a :: Samples.glued_records.

End MoreSamples.

(* ================================================================= *)
(** * Theorems *)

(* ================================================================= *)
(** ** String primitives *)

Section StringFacts.

Lemma eqb_eq (a b : jsstring) : Js.eqb a b = true <-> a = b.
Proof.
  revert b; induction a as [|x a IH]; intros [|y b]; simpl;
    try (split; [discriminate | discriminate]); [tauto|].
  rewrite andb_true_iff, N.eqb_eq, IH.
  split; [intros [-> ->]; reflexivity | intros [= -> ->]; auto].
Qed.

Lemma eqb_refl (a : jsstring) : Js.eqb a a = true.
Proof. apply eqb_eq; reflexivity. Qed.

Lemma replace_all_app c rep (a b : jsstring) :
  replace_all c rep (a ++ b) = replace_all c rep a ++ replace_all c rep b.
Proof.
  induction a as [|x a IH]; simpl; [reflexivity|].
  now rewrite IH, app_assoc.
Qed.

Lemma startsWith_spec (s p : jsstring) :
  startsWith s p = true <-> Spec.BeginsWith s p.
Proof.
  unfold Spec.BeginsWith.
  revert s; induction p as [|y p IH]; intros s; simpl.
  - split; [exists s; reflexivity | reflexivity].
  - destruct s as [|x s]; simpl.
    + split; [discriminate | intros [r Hr]; discriminate].
    + rewrite andb_true_iff, N.eqb_eq, IH.
      split.
      * intros [-> [r ->]]; exists r; reflexivity.
      * intros [r [= -> ->]]; split; [reflexivity | exists r; reflexivity].
Qed.

Lemma split_nonempty sep (s : jsstring) : split sep s <> [].
Proof.
  destruct s as [|x r]; simpl; [discriminate|].
  destruct (x =? sep); [discriminate|].
  destruct (split sep r); discriminate.
Qed.

End StringFacts.

(* ================================================================= *)
(** ** The shell escaper *)

Section ShellEscape.

Lemma replace_quotes_reopened (s : jsstring) :
  replace_all APOSTROPHE
    [APOSTROPHE; REVERSE_SOLIDUS; APOSTROPHE; APOSTROPHE] s
  = Spec.quotes_reopened s.
Proof.
  induction s as [|c s IH]; simpl; [reflexivity|].
  rewrite IH; destruct (c =? APOSTROPHE); reflexivity.
Qed.

Lemma length_quotes_reopened (s : jsstring) :
  length (Spec.quotes_reopened s)
  = (length s + 3 * count_occ N.eq_dec s APOSTROPHE)%nat.
Proof.
  induction s as [|c s IH]; simpl; [reflexivity|].
  destruct (N.eqb_spec c APOSTROPHE) as [->|Hc]; simpl.
  - rewrite IH; lia.
  - destruct (N.eq_dec c APOSTROPHE); [contradiction|].
    rewrite IH; lia.
Qed.

(** Inside single quotes the shell reads the escaped text back, whatever
    follows the closing quote being read in the unquoted state. *)
Lemma word_quotes_reopened (s tail : jsstring) :
  Posix.word Posix.SingleQuoted (Spec.quotes_reopened s ++ APOSTROPHE :: tail)
  = option_map (app s) (Posix.word Posix.Unquoted tail).
Proof.
  induction s as [|c s IH]; simpl.
  - destruct (Posix.word Posix.Unquoted tail); reflexivity.
  - destruct (N.eqb_spec c APOSTROPHE) as [->|Hc]; simpl.
    + rewrite IH. destruct (Posix.word Posix.Unquoted tail); reflexivity.
    + destruct (N.eqb_spec c APOSTROPHE); [contradiction|].
      rewrite IH. destruct (Posix.word Posix.Unquoted tail); reflexivity.
Qed.

Lemma shellEscape_unfold (s : jsstring) :
  shellEscape s = APOSTROPHE :: Spec.quotes_reopened s ++ [APOSTROPHE].
Proof. unfold shellEscape; now rewrite replace_quotes_reopened. Qed.

(** C9.  [shellEscape s] is a single quote, then [s] with every single
    quote replaced by the four characters quote, backslash, quote, quote,
    then a single quote; the empty string gives two quotes; and every
    input has an output, whose length is that of the input plus two plus
    three for each quote in it. *)
Theorem shellEscape_shape :
  (forall s, shellEscape s
             = APOSTROPHE :: Spec.quotes_reopened s ++ [APOSTROPHE]) /\
  shellEscape [] = str "''" /\
  (forall s, (exists! out, shellEscape s = out) /\
             length (shellEscape s)
             = (length s + 2 + 3 * count_occ N.eq_dec s APOSTROPHE)%nat).
Proof.
  split; [exact shellEscape_unfold | split; [reflexivity|]].
  intros s; split; [exists (shellEscape s); split; [reflexivity | auto]|].
  rewrite shellEscape_unfold; simpl.
  rewrite length_app, length_quotes_reopened; simpl; lia.
Qed.

(** C1.  Read as one word by a POSIX shell, [shellEscape s] is [s], for
    every string [s]: quotes, double quotes, backslashes and line breaks
    in [s] all come back as they were. *)
Theorem shellEscape_roundtrip (s : jsstring) :
  Posix.token (shellEscape s) = Some s.
Proof.
  rewrite shellEscape_unfold; unfold Posix.token.
  change (Posix.word Posix.Unquoted
            (APOSTROPHE :: Spec.quotes_reopened s ++ [APOSTROPHE]))
    with (Posix.word Posix.SingleQuoted
            (Spec.quotes_reopened s ++ [APOSTROPHE])).
  rewrite word_quotes_reopened; simpl.
  now rewrite app_nil_r.
Qed.

Example shellEscape_sample :
  shellEscape (str "it's") = str "'it'\''s'".
Proof. reflexivity. Qed.

End ShellEscape.

(* ================================================================= *)
(** ** The AppleScript escaper *)

Section EscapeAppleScript.

Lemma replace_backslashes_doubled (s : jsstring) :
  replace_all REVERSE_SOLIDUS [REVERSE_SOLIDUS; REVERSE_SOLIDUS] s
  = Spec.backslashes_doubled s.
Proof.
  induction s as [|c s IH]; simpl; [reflexivity|].
  rewrite IH; destruct (c =? REVERSE_SOLIDUS); reflexivity.
Qed.

Lemma replace_quotes_escaped (s : jsstring) :
  replace_all QUOTATION_MARK [REVERSE_SOLIDUS; QUOTATION_MARK] s
  = Spec.quotes_escaped s.
Proof.
  induction s as [|c s IH]; simpl; [reflexivity|].
  rewrite IH; destruct (c =? QUOTATION_MARK); reflexivity.
Qed.

Lemma escapeAppleScript_two_steps (s : jsstring) :
  escapeAppleScript s = Spec.quotes_escaped (Spec.backslashes_doubled s).
Proof.
  unfold escapeAppleScript.
  now rewrite replace_backslashes_doubled, replace_quotes_escaped.
Qed.

Lemma escapeAppleScript_cons (c : code_unit) (s : jsstring) :
  escapeAppleScript (c :: s) = Spec.escaped_unit c ++ escapeAppleScript s.
Proof.
  unfold escapeAppleScript, Spec.escaped_unit, Spec.plain; simpl.
  destruct (N.eqb_spec c REVERSE_SOLIDUS) as [->|Hb]; simpl; [reflexivity|].
  destruct (N.eqb_spec c QUOTATION_MARK) as [->|Hq]; reflexivity.
Qed.

Lemma escapeAppleScript_unit_wise (s : jsstring) :
  escapeAppleScript s = flat_map Spec.escaped_unit s.
Proof.
  induction s as [|c s IH]; [reflexivity|].
  now rewrite escapeAppleScript_cons, IH.
Qed.

Lemma escapeAppleScript_app (a b : jsstring) :
  escapeAppleScript (a ++ b) = escapeAppleScript a ++ escapeAppleScript b.
Proof. unfold escapeAppleScript; now rewrite !replace_all_app. Qed.

(** The literal reader undoes the escaping up to the closing quote. *)
Lemma body_escaped (s : jsstring) :
  AppleScript.body (escapeAppleScript s ++ [QUOTATION_MARK]) = Some s.
Proof.
  induction s as [|c s IH]; [reflexivity|].
  rewrite escapeAppleScript_cons; unfold Spec.escaped_unit, Spec.plain.
  destruct (N.eqb_spec c REVERSE_SOLIDUS) as [->|Hb]; simpl.
  - now rewrite IH.
  - destruct (N.eqb_spec c QUOTATION_MARK) as [->|Hq]; simpl.
    + now rewrite IH.
    + destruct (N.eqb_spec c QUOTATION_MARK); [contradiction|].
      destruct (N.eqb_spec c REVERSE_SOLIDUS); [contradiction|].
      now rewrite IH.
Qed.

(** C2.  [escapeAppleScript s] is what one gets by first turning every
    backslash of [s] into two backslashes and then every double quote of
    the result into a backslash and a double quote; and that text, put
    between two double quotes, is an AppleScript string literal whose
    value is [s]. *)
Theorem escapeAppleScript_roundtrip (s : jsstring) :
  escapeAppleScript s = Spec.quotes_escaped (Spec.backslashes_doubled s) /\
  AppleScript.string_literal
    ([QUOTATION_MARK] ++ escapeAppleScript s ++ [QUOTATION_MARK]) = Some s.
Proof.
  split; [apply escapeAppleScript_two_steps | apply body_escaped].
Qed.

(** C10.  A string without backslash and double quote is returned as it
    is.  In general every other character goes through unchanged and in
    its place: the output is the input with a backslash put before each
    backslash and each double quote, so that taking the characters other
    than these two out of input and output gives the same string. *)
Theorem escapeAppleScript_plain (s : jsstring) :
  (forallb Spec.plain s = true -> escapeAppleScript s = s) /\
  escapeAppleScript s = flat_map Spec.escaped_unit s /\
  (forall a c b, s = a ++ c :: b -> Spec.plain c = true ->
     escapeAppleScript s = escapeAppleScript a ++ c :: escapeAppleScript b) /\
  filter Spec.plain (escapeAppleScript s) = filter Spec.plain s.
Proof.
  split; [|split; [|split]].
  - rewrite escapeAppleScript_unit_wise.
    induction s as [|c s IH]; cbn [flat_map forallb]; [reflexivity|].
    intros [Hc Hs]%andb_true_iff.
    rewrite (IH Hs); unfold Spec.escaped_unit; now rewrite Hc.
  - apply escapeAppleScript_unit_wise.
  - intros a c b -> Hc.
    rewrite escapeAppleScript_app, escapeAppleScript_cons.
    unfold Spec.escaped_unit; now rewrite Hc.
  - rewrite escapeAppleScript_unit_wise.
    induction s as [|c s IH]; [reflexivity|].
    cbn [flat_map filter]; rewrite filter_app, IH; unfold Spec.escaped_unit.
    destruct (Spec.plain c) eqn:Hc; cbn [filter app]; rewrite Hc;
      reflexivity.
Qed.

Lemma escapeAppleScript_plain_witness :
  escapeAppleScript (str "tell app to beep") = str "tell app to beep".
Proof.
  apply (escapeAppleScript_plain (str "tell app to beep")); reflexivity.
Defined.

(** The order of the two replacements matters: done the other way round, a
    double quote would come back as a backslash that ends the literal too
    early. *)
Remark quotes_first_breaks :
  let swapped s :=
    replace_all REVERSE_SOLIDUS [REVERSE_SOLIDUS; REVERSE_SOLIDUS]
      (replace_all QUOTATION_MARK [REVERSE_SOLIDUS; QUOTATION_MARK] s) in
  AppleScript.string_literal
    ([QUOTATION_MARK] ++ swapped (lit "a`b") ++ [QUOTATION_MARK]) = None.
Proof. reflexivity. Qed.

End EscapeAppleScript.

(* ================================================================= *)
(** ** The URL guard *)

Section ValidateUrl.

Lemma validateUrl_cases (url label : jsstring) :
  validateUrl url label =
    if startsWith url (str "https://") || startsWith url (str "http://")
    then Return tt
    else Throw (str "[" ++ label
                  ++ str "] Invalid url: must be http(s), got "
                  ++ [QUOTATION_MARK] ++ url ++ [QUOTATION_MARK]).
Proof.
  unfold validateUrl.
  destruct (startsWith url (str "https://")),
           (startsWith url (str "http://")); reflexivity.
Qed.

(** C8.  [validateUrl url label] throws exactly when [url] begins with
    neither http:// nor https://; the message of the error then contains
    [label] and [url] as they are; and a [url] with one of the two
    prefixes makes the call return, with no value. *)
Theorem validateUrl_spec (url label : jsstring) :
  ((exists msg, validateUrl url label = Throw msg) <->
     ~ Spec.BeginsWith url (str "http://")
     /\ ~ Spec.BeginsWith url (str "https://")) /\
  (forall msg, validateUrl url label = Throw msg ->
     Includes msg label /\ Includes msg url) /\
  (Spec.BeginsWith url (str "http://")
   \/ Spec.BeginsWith url (str "https://") ->
     validateUrl url label = Return tt).
Proof.
  rewrite <- !startsWith_spec, validateUrl_cases.
  destruct (startsWith url (str "https://")),
           (startsWith url (str "http://")); cbn [orb];
    (split; [split|split]);
    try solve [ intros [msg [=]] | intros [? ?]; congruence
              | intros msg [=] | reflexivity
              | intros [|]; discriminate ].
  - intros _; split; discriminate.
  - intros _; eexists; reflexivity.
  - intros msg [= <-]; split.
    + exists (str "["), (str "] Invalid url: must be http(s), got "
                           ++ [QUOTATION_MARK] ++ url ++ [QUOTATION_MARK]).
      reflexivity.
    + exists (str "[" ++ label
                ++ str "] Invalid url: must be http(s), got "
                ++ [QUOTATION_MARK]), [QUOTATION_MARK].
      now rewrite <- !app_assoc.
Qed.

Lemma validateUrl_spec_witness :
  validateUrl (str "https://example.com") (str "P") = Return tt /\
  Includes (str "[P] Invalid url: must be http(s), got " ++ lit "`ftp://x`")
    (str "P") /\
  Includes (str "[P] Invalid url: must be http(s), got " ++ lit "`ftp://x`")
    (str "ftp://x").
Proof.
  split.
  - apply (validateUrl_spec (str "https://example.com") (str "P")).
    right; exists (str "example.com"); reflexivity.
  - apply (validateUrl_spec (str "ftp://x") (str "P")); reflexivity.
Defined.

End ValidateUrl.

(* ================================================================= *)
(** ** The JSON parser never runs out of fuel *)

Module JsonFacts.
Import Json.

Lemma skip_ws_length (s : jsstring) : (length (skip_ws s) <= length s)%nat.
Proof.
  induction s as [|c s IH]; simpl; [lia|].
  destruct (is_ws c); simpl; lia.
Qed.

Lemma expect_length c (s r : jsstring) :
  expect c s = Some r -> (length r < length s)%nat.
Proof.
  unfold expect; intros H.
  pose proof (skip_ws_length s) as Hs.
  destruct (skip_ws s) as [|x t]; [discriminate|].
  destruct (x =? c); [|discriminate].
  injection H as <-; simpl in Hs; lia.
Qed.

Lemma digits_length (s ds r : jsstring) :
  digits s = (ds, r) -> (length r <= length s)%nat.
Proof.
  revert ds r; induction s as [|c s IH]; simpl; intros ds r H.
  - injection H as <- <-; simpl; lia.
  - destruct (is_digit c).
    + destruct (digits s) as [ds' r'] eqn:E.
      injection H as <- <-. specialize (IH _ _ eq_refl); lia.
    + injection H as <- <-; simpl; lia.
Qed.

Lemma string_body_length (s v r : jsstring) :
  string_body s = Some (v, r) -> (length r < length s)%nat.
Proof.
  remember (length s) as n eqn:Hn.
  revert s v r Hn; induction n as [n IH] using lt_wf_ind; intros s v r -> H.
  destruct s as [|c s]; [discriminate|]; cbn [string_body] in H.
  destruct (c =? 34); [injection H as <- <-; simpl; lia|].
  destruct (c =? 92).
  - destruct s as [|e r1]; [discriminate|].
    destruct (e =? 117).
    + destruct r1 as [|h1 [|h2 [|h3 [|h4 r2]]]]; try discriminate.
      destruct (hex4 h1 h2 h3 h4); [|discriminate].
      destruct (string_body r2) as [[v' r']|] eqn:E; [|discriminate].
      injection H as <- <-.
      apply (IH (length r2)) in E; simpl in *; lia.
    + destruct (escape e); [|discriminate].
      destruct (string_body r1) as [[v' r']|] eqn:E; [|discriminate].
      injection H as <- <-.
      apply (IH (length r1)) in E; simpl in *; lia.
  - destruct (c <? 32); [discriminate|].
    destruct (string_body s) as [[v' r']|] eqn:E; [|discriminate].
    injection H as <- <-.
    apply (IH (length s)) in E; simpl in *; lia.
Qed.

Lemma int_part_length (s t r : jsstring) :
  int_part s = Some (t, r) -> (length r < length s)%nat.
Proof.
  destruct s as [|c s]; simpl; [discriminate|].
  destruct (c =? 48); [intros [= <- <-]; lia|].
  destruct (is_digit c); [|discriminate].
  destruct (digits s) as [ds r'] eqn:E; intros [= <- <-].
  apply digits_length in E; lia.
Qed.

Lemma frac_part_length (s t r : jsstring) :
  frac_part s = Some (t, r) -> (length r <= length s)%nat.
Proof.
  destruct s as [|c s]; simpl; [intros [= <- <-]; simpl; lia|].
  destruct (c =? 46); [|intros [= <- <-]; simpl; lia].
  destruct (digits s) as [[|d ds] r'] eqn:E; [discriminate|].
  intros [= <- <-]; apply digits_length in E; lia.
Qed.

Lemma exp_digits_length (pre s t r : jsstring) :
  exp_digits pre s = Some (t, r) -> (length r <= length s)%nat.
Proof.
  unfold exp_digits.
  destruct (digits s) as [[|d ds] r'] eqn:E; [discriminate|].
  intros [= <- <-]; apply digits_length in E; lia.
Qed.

Lemma exp_part_length (s t r : jsstring) :
  exp_part s = Some (t, r) -> (length r <= length s)%nat.
Proof.
  destruct s as [|c s]; simpl; [intros [= <- <-]; simpl; lia|].
  destruct ((c =? 101) || (c =? 69)); [|intros [= <- <-]; simpl; lia].
  destruct s as [|sgn s']; [discriminate|].
  destruct ((sgn =? 43) || (sgn =? 45)); intros H;
    apply exp_digits_length in H; simpl in *; lia.
Qed.

Lemma unsigned_length (s t r : jsstring) :
  unsigned s = Some (t, r) -> (length r < length s)%nat.
Proof.
  unfold unsigned.
  destruct (int_part s) as [[i s1]|] eqn:Ei; [|discriminate].
  destruct (frac_part s1) as [[f s2]|] eqn:Ef; [|discriminate].
  destruct (exp_part s2) as [[e s3]|] eqn:Ee; [|discriminate].
  intros [= <- <-].
  apply int_part_length in Ei; apply frac_part_length in Ef;
    apply exp_part_length in Ee; lia.
Qed.

Lemma number_length (s t r : jsstring) :
  number s = Some (t, r) -> (length r < length s)%nat.
Proof.
  destruct s as [|c s]; [discriminate|]; cbn [number].
  destruct (c =? 45).
  - destruct (unsigned s) as [[t' r']|] eqn:E; [|discriminate].
    intros [= <- <-]; apply unsigned_length in E; simpl; lia.
  - apply unsigned_length.
Qed.

Lemma keyword_length w v (s : jsstring) u r :
  w <> [] -> keyword w v s = Parsed u r -> (length r < length s)%nat.
Proof.
  unfold keyword; intros Hw.
  destruct (startsWith s w) eqn:E; [|discriminate].
  intros [= <- <-].
  apply startsWith_spec in E as [t ->].
  rewrite length_skipn, length_app.
  destruct w; [contradiction|simpl; lia].
Qed.

Lemma keyword_fuel w v (s : jsstring) : keyword w v s <> OutOfFuel.
Proof. unfold keyword; destruct (startsWith s w); discriminate. Qed.

(** Whatever a parser returns as the rest is shorter than its input. *)
Lemma parse_consumes (fuel : nat) :
  (forall s v r, parse_value fuel s = Parsed v r ->
                 (length r < length s)%nat) /\
  (forall s seen v r, parse_elements fuel s seen = Parsed v r ->
                      (length r < length s)%nat) /\
  (forall s seen v r, parse_members fuel s seen = Parsed v r ->
                      (length r < length s)%nat).
Proof.
  induction fuel as [|fuel (IHv & IHe & IHm)];
    [repeat split; intros; discriminate|].
  split; [|split].
  - intros s v r; cbn [parse_value].
    pose proof (skip_ws_length s) as Hs.
    destruct (skip_ws s) as [|c t]; [discriminate|]; simpl in Hs.
    destruct (c =? 123).
    { destruct (expect 125 t) as [rest|] eqn:E.
      - intros [= <- <-]; apply expect_length in E; lia.
      - intros H; apply IHm in H; lia. }
    destruct (c =? 91).
    { destruct (expect 93 t) as [rest|] eqn:E.
      - intros [= <- <-]; apply expect_length in E; lia.
      - intros H; apply IHe in H; lia. }
    destruct (c =? 34).
    { destruct (string_body t) as [[v' rest]|] eqn:E; [|discriminate].
      intros [= <- <-]; apply string_body_length in E; lia. }
    destruct (c =? 116);
      [intros H; apply keyword_length in H; [simpl in H; lia|discriminate]|].
    destruct (c =? 102);
      [intros H; apply keyword_length in H; [simpl in H; lia|discriminate]|].
    destruct (c =? 110);
      [intros H; apply keyword_length in H; [simpl in H; lia|discriminate]|].
    destruct (number (c :: t)) as [[t' rest]|] eqn:E; [|discriminate].
    intros [= <- <-]; apply number_length in E; simpl in E; lia.
  - intros s seen v r; cbn [parse_elements].
    destruct (parse_value fuel s) as [v' r'| |] eqn:E; try discriminate.
    apply IHv in E.
    pose proof (skip_ws_length r') as Hs.
    destruct (skip_ws r') as [|c rest]; [discriminate|]; simpl in Hs.
    destruct (c =? 44); [intros H; apply IHe in H; lia|].
    destruct (c =? 93); [intros [= <- <-]; lia|discriminate].
  - intros s seen v r; cbn [parse_members].
    destruct (expect 34 s) as [r0|] eqn:E0; [|discriminate].
    destruct (string_body r0) as [[k r1]|] eqn:E1; [|discriminate].
    destruct (expect 58 r1) as [r2|] eqn:E2; [|discriminate].
    destruct (parse_value fuel r2) as [v' r3| |] eqn:E3; try discriminate.
    apply expect_length in E0, E2; apply string_body_length in E1;
      apply IHv in E3.
    pose proof (skip_ws_length r3) as Hs.
    destruct (skip_ws r3) as [|c rest]; [discriminate|]; simpl in Hs.
    destruct (c =? 44); [intros H; apply IHm in H; lia|].
    destruct (c =? 125); [intros [= <- <-]; lia|discriminate].
Qed.

(** Twice the length of the input, and one more, is fuel enough. *)
Lemma parse_fuel (fuel : nat) :
  (forall s, (2 * length s < fuel)%nat -> parse_value fuel s <> OutOfFuel) /\
  (forall s seen, (2 * length s + 1 < fuel)%nat ->
                  parse_elements fuel s seen <> OutOfFuel) /\
  (forall s seen, (2 * length s + 1 < fuel)%nat ->
                  parse_members fuel s seen <> OutOfFuel).
Proof.
  induction fuel as [|fuel (IHv & IHe & IHm)];
    [repeat split; intros; lia|].
  split; [|split].
  - intros s Hf; cbn [parse_value].
    pose proof (skip_ws_length s) as Hs.
    destruct (skip_ws s) as [|c t]; [discriminate|]; simpl in Hs.
    destruct (c =? 123).
    { destruct (expect 125 t); [discriminate|]. apply IHm; lia. }
    destruct (c =? 91).
    { destruct (expect 93 t); [discriminate|]. apply IHe; lia. }
    destruct (c =? 34); [destruct (string_body t) as [[? ?]|]; discriminate|].
    destruct (c =? 116); [apply keyword_fuel|].
    destruct (c =? 102); [apply keyword_fuel|].
    destruct (c =? 110); [apply keyword_fuel|].
    destruct (number (c :: t)) as [[? ?]|]; discriminate.
  - intros s seen Hf; cbn [parse_elements].
    destruct (parse_value fuel s) as [v' r'| |] eqn:E; try discriminate.
    + apply (proj1 (parse_consumes fuel)) in E.
      pose proof (skip_ws_length r') as Hs.
      destruct (skip_ws r') as [|c rest]; [discriminate|]; simpl in Hs.
      destruct (c =? 44); [apply IHe; lia|].
      destruct (c =? 93); discriminate.
    + exfalso; revert E; apply IHv; lia.
  - intros s seen Hf; cbn [parse_members].
    destruct (expect 34 s) as [r0|] eqn:E0; [|discriminate].
    destruct (string_body r0) as [[k r1]|] eqn:E1; [|discriminate].
    destruct (expect 58 r1) as [r2|] eqn:E2; [|discriminate].
    apply expect_length in E0, E2; apply string_body_length in E1.
    destruct (parse_value fuel r2) as [v' r3| |] eqn:E3; try discriminate.
    + apply (proj1 (parse_consumes fuel)) in E3.
      pose proof (skip_ws_length r3) as Hs.
      destruct (skip_ws r3) as [|c rest]; [discriminate|]; simpl in Hs.
      destruct (c =? 44); [apply IHm; lia|].
      destruct (c =? 125); discriminate.
    + exfalso; revert E3; apply IHv; lia.
Qed.

Lemma parse_value_fuel (s : jsstring) :
  parse_value (fuel_for s) s <> OutOfFuel.
Proof. apply (proj1 (parse_fuel (fuel_for s))); unfold fuel_for; lia. Qed.

(** A result obtained with some fuel is the result with any more fuel. *)
Lemma parse_more_fuel (fuel : nat) :
  (forall s more, parse_value fuel s <> OutOfFuel ->
     parse_value (fuel + more) s = parse_value fuel s) /\
  (forall s seen more, parse_elements fuel s seen <> OutOfFuel ->
     parse_elements (fuel + more) s seen = parse_elements fuel s seen) /\
  (forall s seen more, parse_members fuel s seen <> OutOfFuel ->
     parse_members (fuel + more) s seen = parse_members fuel s seen).
Proof.
  induction fuel as [|fuel (IHv & IHe & IHm)];
    [repeat split; intros; cbn in *; congruence|].
  split; [|split].
  - intros s more; cbn [parse_value Nat.add].
    destruct (skip_ws s) as [|c t]; [reflexivity|].
    destruct (c =? 123); [destruct (expect 125 t); [reflexivity|apply IHm]|].
    destruct (c =? 91); [destruct (expect 93 t); [reflexivity|apply IHe]|].
    reflexivity.
  - intros s seen more; cbn [parse_elements Nat.add].
    destruct (parse_value fuel s) as [v r| |] eqn:E; [| |congruence];
      (rewrite IHv, E by congruence); [|reflexivity].
    destruct (skip_ws r) as [|c rest]; [reflexivity|].
    destruct (c =? 44); [apply IHe | reflexivity].
  - intros s seen more; cbn [parse_members Nat.add].
    destruct (expect 34 s) as [r0|]; [|reflexivity].
    destruct (string_body r0) as [[k r1]|]; [|reflexivity].
    destruct (expect 58 r1) as [r2|]; [|reflexivity].
    destruct (parse_value fuel r2) as [v r3| |] eqn:E; [| |congruence];
      (rewrite IHv, E by congruence); [|reflexivity].
    destruct (skip_ws r3) as [|c rest]; [reflexivity|].
    destruct (c =? 44); [apply IHm | reflexivity].
Qed.

(** [JSON.parse] does not depend on the fuel, once there is enough of it. *)
Lemma parse_any_fuel (s : jsstring) (fuel : nat) :
  (fuel_for s <= fuel)%nat ->
  parse s = match parse_value fuel s with
            | Parsed v rest =>
                match skip_ws rest with [] => Some v | _ :: _ => None end
            | SyntaxError | OutOfFuel => None
            end.
Proof.
  intros Hf; unfold parse.
  replace fuel with (fuel_for s + (fuel - fuel_for s))%nat by lia.
  rewrite (proj1 (parse_more_fuel (fuel_for s)));
    [reflexivity | apply parse_value_fuel].
Qed.
(** [JSON.parse] throws exactly on a syntax error, or on text after the
    value. *)
Lemma parse_none (s : jsstring) :
  parse s = None <->
  parse_value (fuel_for s) s = SyntaxError \/
  exists v r, parse_value (fuel_for s) s = Parsed v r /\ skip_ws r <> [].
Proof.
  unfold parse; pose proof (parse_value_fuel s) as Hf.
  destruct (parse_value (fuel_for s) s) as [v r| |]; [| |contradiction].
  - destruct (skip_ws r) eqn:E; split;
      [discriminate | intros [[=]|(v' & r' & [= <- <-] & H)]; congruence
      | intros _; right; exists v, r; split; [reflexivity|congruence]
      | reflexivity].
  - split; [now left | reflexivity].
Qed.

End JsonFacts.

(* ================================================================= *)
(** ** Decoding and parsing on samples *)

Section Decoding.

(** ASCII text is decoded byte for byte. *)
Lemma decode_bytes_ascii (s : jsstring) :
  Forall (fun c => c < 128) s -> Utf8.decode_bytes (Fs.ascii s) = s.
Proof.
  unfold Utf8.decode_bytes, Fs.ascii.
  induction 1 as [|c s Hc _ IH]; [reflexivity|].
  cbn [map Utf8.decode].
  destruct (Byte.of_N c) as [b|] eqn:Hb;
    [|apply Byte.of_N_None_iff in Hb; lia].
  apply Byte.to_of_N in Hb; rewrite Hb.
  unfold Utf8.lead.
  destruct (N.leb_spec c 0x7F) as [_|Hgt]; [|lia].
  cbn [app flat_map]; rewrite IH.
  unfold Utf8.utf16.
  destruct (N.ltb_spec c 0x10000) as [_|Hge]; [reflexivity|lia].
Qed.

(** The euro sign, an emoji above the BMP, a lead byte without its
    continuation, and a sequence cut by the end of the buffer. *)
Example decode_bytes_mixed :
  Utf8.decode_bytes
    [x7b; xe2; x82; xac; xf0; x9f; x98; x80; xc3; x28; xe2; x82]
  = [123; 0x20AC; 0xD83D; 0xDE00; 0xFFFD; 40; 0xFFFD].
Proof. reflexivity. Qed.

Example parse_nested :
  Json.parse (lit " {`a`: [1, -2.5e+3, true, null, {}], `a`: `A\n`} ")
  = Some (Json.JObject
            [(str "a", Json.JArray [Json.JNumber (str "1");
                                    Json.JNumber (str "-2.5e+3");
                                    Json.JBool true; Json.JNull;
                                    Json.JObject []]);
             (str "a", Json.JString [65; 10])]).
Proof. reflexivity. Qed.

Example parse_rejects :
  map Json.parse
    [[]; lit "{`type`:`b`"; lit "{`a`:1,}"; lit "[1,]"; lit "01";
     lit "1."; lit "nul"; lit "null x"; lit "{a:1}"; lit "'a'"]
  = repeat None 10.
Proof. reflexivity. Qed.

(** A repeated key holds the value given last. *)
Example entry_type_repeated_key :
  entry_type (lit "{`type`:`a`,`type`:`b`}") = Some (str "b").
Proof. reflexivity. Qed.

Example entry_type_not_records :
  map entry_type
    [[]; lit "   "; lit "null"; lit "[{`type`:`a`}]"; lit "`type`";
     lit "{`type`:1}"; lit "{`Type`:`a`}"; lit "{`type`:`a`"]
  = repeat None 8.
Proof. reflexivity. Qed.

Example split_lines :
  split LINE_FEED (str "a" ++ [LINE_FEED] ++ str "b" ++ [LINE_FEED])
  = [str "a"; str "b"; []].
Proof. reflexivity. Qed.

End Decoding.

(* ================================================================= *)
(** ** The backward scan *)

Section Scan.

Lemma entry_type_typed (line t : jsstring) :
  entry_type line = Some t <-> Spec.typed_record line t.
Proof.
  unfold Spec.typed_record, entry_type.
  destruct line as [|c line].
  - split; [discriminate | intros (obj & H & _); discriminate].
  - destruct (trim (c :: line)) as [|d trimmed];
      [split; [discriminate | intros (obj & H & _); discriminate]|].
    destruct (Json.parse (d :: trimmed)) as [[| | | | |obj]|];
      try (split; [discriminate | intros (obj' & H & _); discriminate]).
    split.
    + intros H; exists obj; split; [reflexivity|].
      destruct (Json.get (str "type") obj) as [[| | |s| |]|];
        try discriminate; now injection H as ->.
    + intros (obj' & [= <-] & ->); reflexivity.
Qed.

Lemma entry_type_untyped (line : jsstring) :
  entry_type line = None <-> Spec.untyped line.
Proof.
  unfold Spec.untyped; split.
  - intros H t Ht; apply entry_type_typed in Ht; congruence.
  - intros H; destruct (entry_type line) as [t|] eqn:E; [|reflexivity].
    apply entry_type_typed in E; now apply H in E.
Qed.

Lemma first_entry_app (a b : list jsstring) :
  Spec.first_entry (a ++ b) =
    match Spec.first_entry a with
    | Some t => Some t
    | None => Spec.first_entry b
    end.
Proof.
  induction a as [|l a IH]; simpl; [reflexivity|].
  destruct (entry_type l); [reflexivity | exact IH].
Qed.

Lemma first_entry_none (ls : list jsstring) :
  Spec.first_entry ls = None <-> Forall Spec.untyped ls.
Proof.
  induction ls as [|l ls IH]; simpl.
  - split; [constructor | reflexivity].
  - destruct (entry_type l) eqn:E.
    + split; [discriminate|].
      intros H; inversion H as [|? ? Hl _]; subst.
      apply entry_type_untyped in Hl; congruence.
    + rewrite IH; split.
      * intros H; constructor; [now apply entry_type_untyped | exact H].
      * intros H; now inversion H.
Qed.

Lemma firstn_snoc_nth (lines : list jsstring) (i : nat) :
  (i < length lines)%nat ->
  firstn (S i) lines = firstn i lines ++ [nth i lines []].
Proof.
  revert i; induction lines as [|l lines IH]; intros i Hi;
    [simpl in Hi; lia|].
  destruct i as [|i]; [reflexivity|].
  cbn [firstn nth app]; rewrite <- IH; [reflexivity | simpl in Hi; lia].
Qed.

(** The loop, counting down from [n], finds what a walk over the first
    [n] lines in reverse order finds. *)
Lemma scan_first_entry (lines : list jsstring) (n : nat) :
  (n <= length lines)%nat ->
  scan lines n = Spec.first_entry (rev (firstn n lines)).
Proof.
  induction n as [|i IH]; intros Hn; [reflexivity|].
  cbn [scan].
  assert (Hi : (i < length lines)%nat) by lia.
  rewrite (firstn_snoc_nth _ _ Hi).
  rewrite rev_app_distr; cbn [rev app Spec.first_entry].
  destruct (entry_type (nth i lines [])); [reflexivity|].
  apply IH; lia.
Qed.

Lemma scan_all_rev (lines : list jsstring) :
  scan_all lines = Spec.first_entry (rev lines).
Proof.
  unfold scan_all; rewrite scan_first_entry, firstn_all; [reflexivity|lia].
Qed.

Lemma scan_all_last (before after : list jsstring) (line t : jsstring) :
  Spec.typed_record line t -> Forall Spec.untyped after ->
  scan_all (before ++ line :: after) = Some t.
Proof.
  intros Ht Ha; rewrite scan_all_rev, rev_app_distr; cbn [rev].
  rewrite <- app_assoc, first_entry_app.
  apply Forall_rev, first_entry_none in Ha; rewrite Ha; cbn.
  apply entry_type_typed in Ht; now rewrite Ht.
Qed.

Lemma scan_all_none (lines : list jsstring) :
  Forall Spec.untyped lines -> scan_all lines = None.
Proof.
  intros H; rewrite scan_all_rev; now apply first_entry_none, Forall_rev.
Qed.

Lemma scan_all_cons (l : jsstring) (rest : list jsstring) :
  scan_all (l :: rest) =
    match scan_all rest with
    | Some t => Some t
    | None => entry_type l
    end.
Proof.
  rewrite !scan_all_rev; cbn [rev]; rewrite first_entry_app; cbn.
  destruct (Spec.first_entry (rev rest)); [reflexivity|].
  destruct (entry_type l); reflexivity.
Qed.

End Scan.

Section TailReader.
Import Fs.

(** Decoding the buffer up to [bytesRead] decodes the bytes the [read]
    found, whatever the buffer held before. *)
Lemma toString_filled (found buffer : list byte) :
  Utf8.toString (found ++ skipn (length found) buffer) 0
    (N.of_nat (length found))
  = Utf8.decode_bytes found.
Proof.
  unfold Utf8.toString.
  rewrite N.sub_0_r, Nat2N.id; cbn [N.to_nat skipn].
  rewrite <- (Nat.add_0_r (length found)) at 1.
  now rewrite firstn_app_2, firstn_0, app_nil_r.
Qed.

(** Every run of the reader, by the answers of the file system. *)
Lemma readLastJsonlEntry_cases (fs : FileSystem) (filePath : jsstring) :
  readLastJsonlEntry fs filePath =
    match fs filePath with
    | Rejected _ => ([Open filePath], Ok None)
    | Ok fh =>
        let settle (answer : option TailResult) :=
          match close_error fh with
          | Some e => Rejected e
          | None => Ok answer
          end in
        match stat_result fh with
        | Rejected _ => ([Open filePath; Stat; Close], settle None)
        | Ok st =>
            if size st =? 0 then ([Open filePath; Stat; Close], settle None)
            else
              let readSize := N.min TAIL_READ_BYTES (size st) in
              ([Open filePath; Stat; Read readSize (size st - readSize);
                Close],
               settle
                 match read_error fh with
                 | Some _ => None
                 | None =>
                     Some {| lastType :=
                               scan_all (window_lines (size st) (bytes fh));
                             modifiedAt := mtime st |}
                 end)
        end
    end.
Proof.
  unfold readLastJsonlEntry, read_tail, attempt, open, stat, read, close,
    catch, bind, ret, scan_all, window_lines.
  cbn [fst snd].
  destruct (fs filePath) as [fh|e]; [|reflexivity].
  destruct (stat_result fh) as [st|e]; cbn.
  - destruct (size st =? 0); cbn.
    + destruct (close_error fh); reflexivity.
    + destruct (read_error fh); cbn;
        [destruct (close_error fh); reflexivity|].
      rewrite toString_filled.
      destruct (close_error fh); reflexivity.
  - destruct (close_error fh); reflexivity.
Qed.

End TailReader.

(* ================================================================= *)
(** ** What the reader returns *)

Section TailReaderClaims.
Import Fs.

(** Closes a case whose hypothesis [H] names a run that did not happen. *)
Ltac refute_cause H :=
  lazymatch type of H with
  | _ \/ _ =>
      destruct H as [[e He]|(fh' & Ho & Hc
                             & [[e He]|(st' & Hs & [Hz'|[e He]])])];
      congruence
  | exists _ : TailResult, _ => destruct H as [r Hr]; congruence
  | exists _ : FileHandle, _ =>
      destruct H as (fh' & st' & Ho & Hs & Hn & Hr & Hc); congruence
  | _ = _ => discriminate H
  end.

Lemma untyped_by_scan (lines : list jsstring) :
  forallb (fun l => match entry_type l with
                    | None => true
                    | Some _ => false
                    end) lines = true ->
  Forall Spec.untyped lines.
Proof.
  intros H; apply Forall_forall; intros l Hl.
  rewrite forallb_forall in H; specialize (H l Hl).
  apply entry_type_untyped; destruct (entry_type l); [discriminate|reflexivity].
Qed.

(** The lines a turn of the loop passes over. *)
Lemma skipped_untyped (line : jsstring) :
  line = [] \/ trim line = [] \/ Json.parse (trim line) = None \/
  (exists v, Json.parse (trim line) = Some v /\
             forall obj, v <> Json.JObject obj) ->
  Spec.untyped line.
Proof.
  intros H t (obj & Hp & _).
  destruct H as [-> | [H | [H | (v & H & Hv)]]].
  - discriminate.
  - rewrite H in Hp; discriminate.
  - congruence.
  - rewrite H in Hp; injection Hp as ->; now apply (Hv obj).
Qed.

(** C3.  Let the file open, answer [stat] with a size other than 0, be
    readable and close.  When some line of the decoded window parses as a
    JSON object with a string as its [type], the reader returns a result
    with the time [stat] gave and a string as [lastType]; that string is the
    [type] of the last such line: with the lines being [before], then
    [line], then [after], where [line] is such a line with type [t] and no
    line of [after] is one, the answer is [lastType: t].  A turn of the loop
    passes over every line that is empty, made of white space only, rejected
    by [JSON.parse] or parsed to something that is not an object, and the
    call does not fail on it. *)
Theorem readLastJsonlEntry_last_record
    (fs : FileSystem) (filePath : jsstring) (fh : FileHandle) (st : Stats) :
  fs filePath = Ok fh ->
  stat_result fh = Ok st ->
  size st <> 0 ->
  read_error fh = None ->
  close_error fh = None ->
  let lines := window_lines (size st) (bytes fh) in
  let answer t := Ok (Some {| lastType := Some t; modifiedAt := mtime st |}) in
  (Exists (fun l => exists t, Spec.typed_record l t) lines ->
   exists t, snd (readLastJsonlEntry fs filePath) = answer t) /\
  (forall before line after t,
     lines = before ++ line :: after ->
     Spec.typed_record line t ->
     Forall Spec.untyped after ->
     snd (readLastJsonlEntry fs filePath) = answer t) /\
  (forall skipped,
     skipped = [] \/ trim skipped = [] \/
     Json.parse (trim skipped) = None \/
     (exists v, Json.parse (trim skipped) = Some v /\
                forall obj, v <> Json.JObject obj) ->
     entry_type skipped = None /\ Spec.untyped skipped).
Proof.
  intros Hopen Hstat Hsize Hread Hclose lines answer.
  assert (Hrun : snd (readLastJsonlEntry fs filePath)
                 = Ok (Some {| lastType := scan_all lines;
                               modifiedAt := mtime st |})).
  { rewrite readLastJsonlEntry_cases, Hopen, Hstat; cbn zeta.
    apply N.eqb_neq in Hsize; now rewrite Hsize, Hread, Hclose. }
  rewrite Hrun; split; [|split].
  - intros Hsome.
    destruct (scan_all lines) as [t|] eqn:Hscan; [now exists t|].
    exfalso.
    rewrite scan_all_rev in Hscan.
    apply first_entry_none, Forall_rev in Hscan.
    rewrite rev_involutive, Forall_forall in Hscan.
    apply Exists_exists in Hsome as (l & Hl & t & Ht).
    exact (Hscan l Hl t Ht).
  - intros before line after t Hlines Hline Hafter.
    unfold answer; now rewrite Hlines, (scan_all_last _ _ _ _ Hline Hafter).
  - intros skipped Hs; apply skipped_untyped in Hs.
    split; [now apply entry_type_untyped | exact Hs].
Qed.

(** The two sample logs: with both records complete the answer is [b];
    with the second one cut short it is [a]. *)
Lemma readLastJsonlEntry_last_record_witness :
  snd (readLastJsonlEntry (Samples.file Samples.two_records)
         Samples.log_path)
    = Ok (Some {| lastType := Some (str "b");
                  modifiedAt := Samples.modified |}) /\
  snd (readLastJsonlEntry (Samples.file Samples.torn_record)
         Samples.log_path)
    = Ok (Some {| lastType := Some (str "a");
                  modifiedAt := Samples.modified |}).
Proof.
  split.
  - refine (proj1 (proj2 (readLastJsonlEntry_last_record
             (Samples.file Samples.two_records) Samples.log_path
             (regular Samples.two_records Samples.modified)
             {| size := 26; mtime := Samples.modified |} _ _ _ _ _))
             [lit "{`type`:`a`}"] (lit "{`type`:`b`}") [[]] (str "b") _ _ _);
      try reflexivity.
    + discriminate.
    + eexists; split; vm_compute; reflexivity.
    + apply untyped_by_scan; reflexivity.
  - refine (proj1 (proj2 (readLastJsonlEntry_last_record
             (Samples.file Samples.torn_record) Samples.log_path
             (regular Samples.torn_record Samples.modified)
             {| size := 24; mtime := Samples.modified |} _ _ _ _ _))
             [] (lit "{`type`:`a`}") [lit "{`type`:`b`"] (str "a") _ _ _);
      try reflexivity.
    + discriminate.
    + eexists; split; vm_compute; reflexivity.
    + apply untyped_by_scan; reflexivity.
Defined.

Lemma tail_window_regular (content : list byte) :
  let size := N.of_nat (length content) in
  let readSize := N.min TAIL_READ_BYTES size in
  tail_window size content = skipn (N.to_nat (size - readSize)) content /\
  N.of_nat (length (tail_window size content)) = readSize.
Proof.
  cbv zeta; unfold tail_window.
  set (size := N.of_nat (length content)).
  set (readSize := N.min TAIL_READ_BYTES size).
  assert (Hle : readSize <= size) by apply N.le_min_r.
  assert (Hlen : length (skipn (N.to_nat (size - readSize)) content)
                 = N.to_nat readSize).
  { rewrite length_skipn; subst size; lia. }
  split.
  - apply firstn_all2; lia.
  - rewrite firstn_all2 by lia. rewrite Hlen; lia.
Qed.

(** C5.  Whatever the file system answers, the reader asks for at most
    4096 bytes in all.  When the file opens and [stat] gives a size [S]
    above 0, it issues one [read], for [min(4096, S)] bytes at offset
    [S - min(4096, S)]: the whole file, from offset 0, when [S] is at most
    4096.  The [read] never delivers more than it was asked for, and on a
    file of [S] bytes it delivers the last [min(4096, S)] bytes. *)
Theorem readLastJsonlEntry_one_window
    (fs : FileSystem) (filePath : jsstring) :
  bytes_requested (fst (readLastJsonlEntry fs filePath)) <= TAIL_READ_BYTES /\
  forall fh st,
    fs filePath = Ok fh ->
    stat_result fh = Ok st ->
    0 < size st ->
    let readSize := N.min TAIL_READ_BYTES (size st) in
    let found := bytes_at fh readSize (size st - readSize) in
    reads (fst (readLastJsonlEntry fs filePath))
      = [(readSize, size st - readSize)] /\
    readSize <= TAIL_READ_BYTES /\
    (size st <= TAIL_READ_BYTES ->
     readSize = size st /\ size st - readSize = 0) /\
    N.of_nat (length found) <= readSize /\
    (N.of_nat (length (bytes fh)) = size st ->
     found = skipn (N.to_nat (size st - readSize)) (bytes fh) /\
     N.of_nat (length found) = readSize).
Proof.
  rewrite readLastJsonlEntry_cases; split.
  - destruct (fs filePath) as [fh|e]; [|cbn; lia].
    destruct (stat_result fh) as [st|e]; [|cbn; lia].
    destruct (size st =? 0); cbn; unfold TAIL_READ_BYTES; lia.
  - intros fh st -> -> Hsize readSize found.
    destruct (N.eqb_spec (size st) 0) as [E|_]; [lia|].
    split; [reflexivity|].
    split; [apply N.le_min_l|].
    split; [subst readSize; lia|].
    split.
    + subst found; unfold bytes_at.
      pose proof (firstn_le_length (N.to_nat readSize)
                    (skipn (N.to_nat (size st - readSize)) (bytes fh))).
      lia.
    + intros Hbytes; subst found readSize; rewrite <- Hbytes.
      apply tail_window_regular.
Qed.

Lemma readLastJsonlEntry_one_window_witness :
  reads (fst (readLastJsonlEntry (Samples.file Samples.glued_records)
                Samples.log_path)) = [(4096, 14)] /\
  reads (fst (readLastJsonlEntry (Samples.file Samples.two_records)
                Samples.log_path)) = [(26, 0)].
Proof.
  split.
  - apply (proj2 (readLastJsonlEntry_one_window
                    (Samples.file Samples.glued_records) Samples.log_path)
             (regular Samples.glued_records Samples.modified)
             {| size := 4110; mtime := Samples.modified |});
      reflexivity.
  - apply (proj2 (readLastJsonlEntry_one_window
                    (Samples.file Samples.two_records) Samples.log_path)
             (regular Samples.two_records Samples.modified)
             {| size := 26; mtime := Samples.modified |});
      reflexivity.
Defined.

(** C4, as the code has it.  The reader returns [null] exactly when
    [open] fails, or the handle closes and [stat] fails, the size is 0 or
    the [read] of the window fails; it returns a result exactly when the
    file opens, answers [stat] with a size other than 0, can be read and
    closes.  A missing file, one that may not be opened and an empty one
    all give the same [null]. *)
Theorem readLastJsonlEntry_null (fs : FileSystem) (filePath : jsstring) :
  (snd (readLastJsonlEntry fs filePath) = Ok None <->
     (exists e, fs filePath = Rejected e) \/
     (exists fh, fs filePath = Ok fh /\ close_error fh = None /\
        ((exists e, stat_result fh = Rejected e) \/
         (exists st, stat_result fh = Ok st /\
            (size st = 0 \/ exists e, read_error fh = Some e))))) /\
  ((exists r, snd (readLastJsonlEntry fs filePath) = Ok (Some r)) <->
     exists fh st, fs filePath = Ok fh /\ stat_result fh = Ok st /\
       size st <> 0 /\ read_error fh = None /\ close_error fh = None).
Proof.
  rewrite readLastJsonlEntry_cases.
  destruct (fs filePath) as [fh|e0] eqn:Hopen; cbn [snd];
    [destruct (stat_result fh) as [st|e1] eqn:Hstat; cbn zeta;
     [destruct (N.eqb_spec (size st) 0) as [Hz|Hnz]; cbn [snd];
      [|destruct (read_error fh) as [e3|] eqn:Hread]|];
     cbn [snd]; destruct (close_error fh) as [e2|] eqn:Hclose|];
    (split; split; intros H);
    first [ reflexivity | refute_cause H | left; eauto; fail
          | right; exists fh; eauto 10; fail | eauto 10 ].
Qed.

(** Against C4 as worded: a directory opens and answers [stat] with a
    size of 4096, so none of the listed causes holds, and the reader
    still returns [null], because the [read] fails.  Hence [null] is not
    returned only when [open] or [stat] fails or the size is 0. *)
Lemma directory_read_answers_null :
  (Samples.disk Samples.directory Samples.log_path = Ok Samples.directory /\
   stat_result Samples.directory
     = Ok {| size := 4096; mtime := Samples.modified |} /\
   snd (readLastJsonlEntry (Samples.disk Samples.directory) Samples.log_path)
     = Ok None) /\
  ~ (forall fs filePath,
       snd (readLastJsonlEntry fs filePath) = Ok None <->
       (exists e, fs filePath = Rejected e) \/
       (exists fh, fs filePath = Ok fh /\
          ((exists e, stat_result fh = Rejected e) \/
           (exists st, stat_result fh = Ok st /\ size st = 0)))).
Proof.
  split; [repeat split|].
  intros claim.
  destruct (proj1 (claim (Samples.disk Samples.directory) Samples.log_path)
              eq_refl)
    as [[e He] | (fh & Hopen & [[e He] | (st & Hstat & Hsize)])].
  - discriminate He.
  - injection Hopen as <-; discriminate He.
  - injection Hopen as <-; injection Hstat as <-; discriminate Hsize.
Qed.

(** C7, as the code has it.  When the file is larger than the window,
    opens, can be read and closes, the first line of the decoded window is
    handled like every other line: it is looked at after all the later
    lines were passed over, and is passed over itself when it is empty,
    white space, rejected by [JSON.parse] or without a string [type]; the
    answer is then the one the later lines give.  A first line that does
    parse as a typed record is reported when no later line is one. *)
Theorem readLastJsonlEntry_first_line
    (fs : FileSystem) (filePath : jsstring) (fh : FileHandle) (st : Stats) :
  fs filePath = Ok fh ->
  stat_result fh = Ok st ->
  TAIL_READ_BYTES < size st ->
  read_error fh = None ->
  close_error fh = None ->
  let lines := window_lines (size st) (bytes fh) in
  let first := hd [] lines in
  let later := tl lines in
  snd (readLastJsonlEntry fs filePath)
    = Ok (Some {| lastType := match scan_all later with
                              | Some t => Some t
                              | None => entry_type first
                              end;
                  modifiedAt := mtime st |}) /\
  (Spec.untyped first ->
   snd (readLastJsonlEntry fs filePath)
     = Ok (Some {| lastType := scan_all later; modifiedAt := mtime st |})).
Proof.
  intros Hopen Hstat Hsize Hread Hclose lines first later.
  assert (Hnz : (size st =? 0) = false)
    by (apply N.eqb_neq; unfold TAIL_READ_BYTES in Hsize; lia).
  assert (Hrun : snd (readLastJsonlEntry fs filePath)
                 = Ok (Some {| lastType := scan_all lines;
                               modifiedAt := mtime st |})).
  { rewrite readLastJsonlEntry_cases, Hopen, Hstat; cbn zeta.
    now rewrite Hnz, Hread, Hclose. }
  assert (Hlines : lines = first :: later).
  { subst first later; destruct lines eqn:E; [|reflexivity].
    now apply split_nonempty in E. }
  rewrite Hrun, Hlines, scan_all_cons; split; [reflexivity|].
  intros Hfirst; apply entry_type_untyped in Hfirst; rewrite Hfirst.
  destruct (scan_all later); reflexivity.
Qed.

(** On the log of 5113 bytes the window begins one byte into a record:
    the rest of that record is passed over. *)
Lemma readLastJsonlEntry_first_line_witness :
  hd [] (window_lines 5113 Samples.typed_then_ticks)
    = lit "`event`:`tick`}" /\
  snd (readLastJsonlEntry (Samples.file Samples.typed_then_ticks)
         Samples.log_path)
    = Ok (Some {| lastType :=
                    scan_all (tl (window_lines 5113 Samples.typed_then_ticks));
                  modifiedAt := Samples.modified |}).
Proof.
  split; [vm_compute; reflexivity|].
  apply (readLastJsonlEntry_first_line
           (Samples.file Samples.typed_then_ticks) Samples.log_path
           (regular Samples.typed_then_ticks Samples.modified)
           {| size := 5113; mtime := Samples.modified |});
    try reflexivity.
  apply entry_type_untyped; vm_compute; reflexivity.
Defined.

(** Against C7 as worded: the log of 4110 bytes is larger than the
    window, which begins at offset 14, in the middle of the first line.
    That line as a whole is not a record, and a scan of the whole file
    finds no type; what is left of the line in the window parses as a
    record, no later line does, and the reader returns the type found in
    the fragment.  Hence the answer on a file larger than the window is not
    always the one the lines after the first give. *)
Lemma glued_fragment_is_reported :
  (TAIL_READ_BYTES < N.of_nat (length Samples.glued_records) /\
  Utf8.toString Samples.glued_records 0 29
    = lit "{`type`:`old`}{`type`:`frag`}" /\
  nth_error Samples.glued_records 29 = Some x0a /\
  entry_type (lit "{`type`:`old`}{`type`:`frag`}") = None /\
  scan_all (split LINE_FEED (Utf8.decode_bytes Samples.glued_records))
    = None /\
  window_lines 4110 Samples.glued_records
    = lit "{`type`:`frag`}"
        :: repeat (lit "{`event`:`tick`}") 240 ++ [[]] /\
  scan_all (repeat (lit "{`event`:`tick`}") 240 ++ [[]]) = None /\
  snd (readLastJsonlEntry (Samples.file Samples.glued_records)
         Samples.log_path)
    = Ok (Some {| lastType := Some (str "frag");
                  modifiedAt := Samples.modified |})) /\
  ~ (forall content,
       let size := N.of_nat (length content) in
       TAIL_READ_BYTES < size ->
       snd (readLastJsonlEntry (Samples.file content) Samples.log_path)
         = Ok (Some {| lastType := scan_all (tl (window_lines size content));
                       modifiedAt := Samples.modified |})).
Proof.
  split; [repeat split; vm_compute; reflexivity|].
  intros claim.
  specialize (claim Samples.glued_records eq_refl).
  vm_compute in claim; discriminate claim.
Qed.

End TailReaderClaims.

(* ================================================================= *)
(** ** Escaped text inside a command line or a script *)

Section EscapedInContext.

(** X1.  Two escaped strings written one after the other are read by the
    shell as one word, the two strings joined. *)
Theorem shellEscape_adjacent (a b : jsstring) :
  Posix.token (shellEscape a ++ shellEscape b) = Some (a ++ b).
Proof.
  rewrite !shellEscape_unfold; unfold Posix.token.
  cbn [app].
  change (Posix.word Posix.Unquoted
            (APOSTROPHE :: ?x)) with (Posix.word Posix.SingleQuoted x).
  rewrite <- app_assoc; cbn [app].
  rewrite word_quotes_reopened.
  change (Posix.word Posix.Unquoted
            (APOSTROPHE :: Spec.quotes_reopened b ++ [APOSTROPHE]))
    with (Posix.word Posix.SingleQuoted
            (Spec.quotes_reopened b ++ [APOSTROPHE])).
  rewrite word_quotes_reopened; cbn.
  now rewrite app_nil_r.
Qed.

(** Inside single quotes the word under way grows by the escaped text. *)
Lemma scan_words_quotes_reopened (w s tail : jsstring) :
  CommandLine.scan_words Posix.SingleQuoted (Some w)
    (Spec.quotes_reopened s ++ APOSTROPHE :: tail)
  = CommandLine.scan_words Posix.Unquoted (Some (w ++ s)) tail.
Proof.
  revert w; induction s as [|c s IH]; intros w; cbn.
  - now rewrite app_nil_r.
  - destruct (N.eqb_spec c APOSTROPHE) as [->|Hc]; cbn.
    + rewrite IH, <- app_assoc; reflexivity.
    + destruct (N.eqb_spec c APOSTROPHE); [contradiction|].
      rewrite IH, <- app_assoc; reflexivity.
Qed.

Lemma words_escaped_then (a : jsstring) (tail : jsstring) :
  CommandLine.scan_words Posix.Unquoted None (shellEscape a ++ tail)
  = CommandLine.scan_words Posix.Unquoted (Some a) tail.
Proof.
  rewrite shellEscape_unfold; cbn.
  rewrite <- app_assoc; cbn [app].
  now rewrite scan_words_quotes_reopened.
Qed.

(** X2.  A command line built by escaping each argument and putting one
    space between them is split by the shell into exactly these arguments,
    empty ones and ones with blanks, quotes or line breaks included. *)
Theorem shellEscape_command_line (args : list jsstring) :
  CommandLine.words (JsArray.join [SPACE] (map shellEscape args))
  = Some args.
Proof.
  unfold CommandLine.words.
  destruct args as [|a rest]; [reflexivity|].
  revert a; induction rest as [|b rest IH]; intros a.
  - cbn [map JsArray.join].
    rewrite <- (app_nil_r (shellEscape a)), words_escaped_then.
    reflexivity.
  - change (JsArray.join [SPACE] (map shellEscape (a :: b :: rest)))
      with (shellEscape a
              ++ [SPACE] ++ JsArray.join [SPACE] (map shellEscape (b :: rest))).
    rewrite words_escaped_then.
    cbn [app CommandLine.scan_words].
    change (SPACE =? APOSTROPHE) with false.
    change (SPACE =? REVERSE_SOLIDUS) with false.
    change (CommandLine.is_blank SPACE) with true.
    cbn iota.
    now rewrite IH.
Qed.

(** The reader of an embedded literal undoes the escaping and stops at the
    quote the caller wrote. *)
Lemma embedded_body_escaped (s rest : jsstring) :
  Embedded.body (escapeAppleScript s ++ QUOTATION_MARK :: rest)
  = Some (s, rest).
Proof.
  induction s as [|c s IH]; [reflexivity|].
  rewrite escapeAppleScript_cons; unfold Spec.escaped_unit, Spec.plain.
  destruct (N.eqb_spec c REVERSE_SOLIDUS) as [->|Hb]; cbn.
  - now rewrite IH.
  - destruct (N.eqb_spec c QUOTATION_MARK) as [->|Hq]; cbn.
    + now rewrite IH.
    + destruct (N.eqb_spec c QUOTATION_MARK); [contradiction|].
      destruct (N.eqb_spec c REVERSE_SOLIDUS); [contradiction|].
      now rewrite IH.
Qed.

(** X3.  In a script, the escaped text between two double quotes is a
    string literal that ends at the second of these quotes, whatever the
    script goes on with: its value is the string and no part of the string
    is read as script. *)
Theorem escapeAppleScript_embedded (s rest : jsstring) :
  Embedded.string_literal
    ([QUOTATION_MARK] ++ escapeAppleScript s ++ [QUOTATION_MARK] ++ rest)
  = Some (s, rest).
Proof. apply embedded_body_escaped. Qed.

(** X4.  The escaped text is longer than the string by one character for
    each backslash and each double quote in it: never shorter than the
    string and never more than twice as long. *)
Theorem escapeAppleScript_length (s : jsstring) :
  length (escapeAppleScript s)
  = (length s + length (filter (fun c => negb (Spec.plain c)) s))%nat /\
  (length s <= length (escapeAppleScript s) <= 2 * length s)%nat.
Proof.
  assert (H : length (escapeAppleScript s)
              = (length s
                 + length (filter (fun c => negb (Spec.plain c)) s))%nat).
  { rewrite escapeAppleScript_unit_wise.
    induction s as [|c s IH]; [reflexivity|].
    cbn [flat_map filter]; rewrite length_app, IH.
    unfold Spec.escaped_unit; destruct (Spec.plain c); cbn; lia. }
  split; [exact H|].
  pose proof (filter_length_le (fun c => negb (Spec.plain c)) s); lia.
Qed.

End EscapedInContext.

(* ================================================================= *)
(** ** Lines, line feeds and white space *)

Section Lines.

Lemma split_app_sep sep (a b : jsstring) :
  split sep (a ++ sep :: b) = split sep a ++ split sep b.
Proof.
  induction a as [|x a IH]; cbn [app split].
  - now rewrite N.eqb_refl.
  - rewrite IH.
    destruct (x =? sep); [reflexivity|].
    pose proof (split_nonempty sep a) as Ha.
    destruct (split sep a); [contradiction|reflexivity].
Qed.

Lemma split_no_sep sep (s : jsstring) :
  ~ In sep s -> split sep s = [s].
Proof.
  induction s as [|x s IH]; intros Hs; [reflexivity|].
  cbn [split].
  destruct (N.eqb_spec x sep) as [->|_]; [exfalso; apply Hs; now left|].
  rewrite IH; [reflexivity | intros H; apply Hs; now right].
Qed.

Lemma lead_awaits (b : N) : Shape.awaits_continuation (snd (Utf8.lead b)).
Proof.
  unfold Utf8.lead.
  repeat match goal with
         | |- context [if ?c then _ else _] => destruct c
         end; cbn; lia.
Qed.

(** A line feed ends whatever sequence was under way, and decoding starts
    afresh behind it. *)
Lemma decode_line_feed (st : option Utf8.pending) (a b : list N) :
  Shape.awaits_continuation st ->
  Utf8.decode st (a ++ 10 :: b)
  = Utf8.decode st a ++ 10 :: Utf8.decode None b.
Proof.
  revert st; induction a as [|x a IH]; intros st Hst.
  - destruct st as [p|]; cbn in *; [|reflexivity].
    destruct (N.leb_spec (Utf8.lower p) 10) as [Hle|_]; [lia|reflexivity].
  - cbn [app Utf8.decode].
    destruct st as [p|].
    + destruct ((Utf8.lower p <=? x) && (x <=? Utf8.upper p)).
      * destruct (Utf8.bytes_due p) as [|[|n]];
          rewrite IH; cbn; try reflexivity; lia.
      * pose proof (lead_awaits x) as Hl.
        destruct (Utf8.lead x) as [out st']; cbn in Hl.
        rewrite IH by exact Hl.
        cbn [app]; now rewrite app_assoc.
    + pose proof (lead_awaits x) as Hl.
      destruct (Utf8.lead x) as [out st']; cbn in Hl.
      rewrite IH by exact Hl.
      now rewrite app_assoc.
Qed.

Lemma decode_bytes_line_feed (a b : list byte) :
  Utf8.decode_bytes (a ++ x0a :: b)
  = Utf8.decode_bytes a ++ LINE_FEED :: Utf8.decode_bytes b.
Proof.
  unfold Utf8.decode_bytes.
  rewrite map_app; cbn [map].
  change (Byte.to_N x0a) with 10.
  rewrite decode_line_feed by exact I.
  now rewrite flat_map_app.
Qed.

(** The lines of a text that ends with a complete line [last] *)
Lemma lines_with_last_line (a last : list byte) :
  ~ In LINE_FEED (Utf8.decode_bytes last) ->
  split LINE_FEED (Utf8.decode_bytes (a ++ x0a :: last ++ [x0a]))
  = split LINE_FEED (Utf8.decode_bytes a) ++ [Utf8.decode_bytes last; []].
Proof.
  intros Hlast.
  rewrite decode_bytes_line_feed, split_app_sep.
  rewrite decode_bytes_line_feed, split_app_sep.
  now rewrite (split_no_sep _ _ Hlast).
Qed.

End Lines.

(* ================================================================= *)
(** ** A window without a typed line *)

Section NoRecord.
Import Fs.

(** C6, as the code has it.  Let the file open, answer [stat] with a size
    other than 0, be readable and close.  When no line of the decoded
    window parses as a JSON object with a string as its [type], the reader
    returns a result, not [null], whose [lastType] is [null] and whose time
    is the one [stat] gave.  When the lines after the first one of the
    window do not parse so, the answer is what the first line gives:
    [null] when it does not parse so either, its type when it does.  On a
    file larger than the window, with the window being [frag], a line
    feed and [tail], the first line of the window is [frag], the end of a
    line of the file that began before the window, and the later lines of
    the window are the lines of the file behind that line feed: typed lines
    that lie before the window are not seen, a fragment that parses is. *)
Theorem readLastJsonlEntry_no_record
    (fs : FileSystem) (filePath : jsstring) (fh : FileHandle) (st : Stats) :
  fs filePath = Ok fh ->
  stat_result fh = Ok st ->
  size st <> 0 ->
  read_error fh = None ->
  close_error fh = None ->
  let lines := window_lines (size st) (bytes fh) in
  let answer t := Ok (Some {| lastType := t; modifiedAt := mtime st |}) in
  (Forall Spec.untyped lines ->
   snd (readLastJsonlEntry fs filePath) = answer None) /\
  (Forall Spec.untyped (tl lines) ->
   snd (readLastJsonlEntry fs filePath) = answer (entry_type (hd [] lines)) /\
   (Spec.untyped (hd [] lines) ->
    snd (readLastJsonlEntry fs filePath) = answer None)) /\
  (forall pre frag tail,
     bytes fh = pre ++ frag ++ x0a :: tail ->
     N.of_nat (length (bytes fh)) = size st ->
     N.of_nat (length (frag ++ x0a :: tail)) = TAIL_READ_BYTES ->
     ~ In LINE_FEED (Utf8.decode_bytes frag) ->
     lines = Utf8.decode_bytes frag
               :: split LINE_FEED (Utf8.decode_bytes tail) /\
     split LINE_FEED (Utf8.decode_bytes (bytes fh))
     = split LINE_FEED (Utf8.decode_bytes (pre ++ frag))
         ++ split LINE_FEED (Utf8.decode_bytes tail)).
Proof.
  intros Hopen Hstat Hsize Hread Hclose lines answer.
  assert (Hrun : snd (readLastJsonlEntry fs filePath)
                 = answer (scan_all lines)).
  { rewrite readLastJsonlEntry_cases, Hopen, Hstat; cbn zeta.
    apply N.eqb_neq in Hsize; now rewrite Hsize, Hread, Hclose. }
  rewrite Hrun; split; [|split].
  - intros Hlines; now rewrite (scan_all_none _ Hlines).
  - intros Hlater.
    assert (Hlines : lines = hd [] lines :: tl lines).
    { destruct lines eqn:E; [|reflexivity].
      now apply split_nonempty in E. }
    assert (Hscan : scan_all lines = entry_type (hd [] lines)).
    { rewrite Hlines at 1.
      now rewrite scan_all_cons, (scan_all_none _ Hlater). }
    rewrite Hscan; split; [reflexivity|].
    intros Hfirst; apply entry_type_untyped in Hfirst; now rewrite Hfirst.
  - intros pre frag tail Hbytes Hregular Hwindow Hfrag.
    split.
    + subst lines; unfold window_lines.
      rewrite <- Hregular.
      destruct (tail_window_regular (bytes fh)) as [-> _].
      rewrite Hbytes at 3.
      rewrite skipn_app.
      assert (Hlen : N.to_nat
                       (N.of_nat (length (bytes fh))
                        - N.min TAIL_READ_BYTES (N.of_nat (length (bytes fh))))
                     = length pre).
      { rewrite Hbytes, length_app.
        rewrite length_app in Hwindow |- *.
        unfold TAIL_READ_BYTES in *; lia. }
      rewrite Hlen, skipn_all, Nat.sub_diag; cbn [app skipn].
      rewrite decode_bytes_line_feed, split_app_sep.
      now rewrite (split_no_sep _ _ Hfrag).
    + rewrite Hbytes, app_assoc.
      now rewrite decode_bytes_line_feed, split_app_sep.
Qed.

(** A log of 5113 bytes whose only typed record is its first line, far
    before the last 4096 bytes, answers [null] as type; the log with a
    typed line before the window and a fragment that parses at its start
    answers with the type in the fragment. *)
Lemma readLastJsonlEntry_no_record_witness :
  (TAIL_READ_BYTES < N.of_nat (length Samples.typed_then_ticks) /\
   entry_type (Utf8.toString Samples.typed_then_ticks 0 12)
     = Some (str "a") /\
   snd (readLastJsonlEntry (Samples.file Samples.typed_then_ticks)
          Samples.log_path)
     = Ok (Some {| lastType := None; modifiedAt := Samples.modified |})) /\
  snd (readLastJsonlEntry (Samples.file MoreSamples.typed_then_glued)
         Samples.log_path)
    = Ok (Some {| lastType := entry_type (lit "{`type`:`frag`}");
                  modifiedAt := Samples.modified |}).
Proof.
  split; [split; [reflexivity | split; [reflexivity|]]|].
  - refine (proj1 (readLastJsonlEntry_no_record
             (Samples.file Samples.typed_then_ticks) Samples.log_path
             (regular Samples.typed_then_ticks Samples.modified)
             {| size := 5113; mtime := Samples.modified |} _ _ _ _ _) _);
      try reflexivity.
    + discriminate.
    + apply untyped_by_scan; vm_compute; reflexivity.
  - refine (proj1 (proj1 (proj2 (readLastJsonlEntry_no_record
             (Samples.file MoreSamples.typed_then_glued) Samples.log_path
             (regular MoreSamples.typed_then_glued Samples.modified)
             {| size := 4123; mtime := Samples.modified |} _ _ _ _ _)) _));
      try reflexivity.
    + discriminate.
    + apply untyped_by_scan; vm_compute; reflexivity.
Defined.

(** Against C6 as worded: in the log of 4123 bytes the only line of the
    file that parses as a typed record is the first, which ends at byte 12,
    before the window, which begins at byte 27; every line of the file
    from byte 13 on is untyped as a whole.  Still the reader answers with a
    type, the one of the fragment the window begins with.  Hence a file
    whose typed lines all lie before the window need not get [null] as
    type. *)
Lemma typed_line_before_window_reported :
  (TAIL_READ_BYTES < N.of_nat (length MoreSamples.typed_then_glued) /\
   map (fun l => match entry_type l with Some _ => true | None => false end)
     (split LINE_FEED (Utf8.decode_bytes MoreSamples.typed_then_glued))
   = true :: repeat false 242 /\
   nth_error MoreSamples.typed_then_glued 12 = Some x0a /\
   reads (fst (readLastJsonlEntry
                 (Samples.file MoreSamples.typed_then_glued)
                 Samples.log_path)) = [(4096, 27)] /\
   snd (readLastJsonlEntry (Samples.file MoreSamples.typed_then_glued)
          Samples.log_path)
   = Ok (Some {| lastType := Some (str "frag");
                 modifiedAt := Samples.modified |})) /\
  ~ (forall before after : list byte,
       TAIL_READ_BYTES <= N.of_nat (length after) ->
       Forall Spec.untyped
         (split LINE_FEED (Utf8.decode_bytes after)) ->
       snd (readLastJsonlEntry (Samples.file (before ++ x0a :: after))
              Samples.log_path)
       = Ok (Some {| lastType := None; modifiedAt := Samples.modified |})).
Proof.
  split; [repeat split; vm_compute; reflexivity|].
  intros claim.
  specialize (claim (Fs.ascii (lit "{`type`:`a`}")) Samples.glued_records).
  assert (Hlong : TAIL_READ_BYTES <= N.of_nat (length Samples.glued_records))
    by (vm_compute; discriminate).
  assert (Huntyped : Forall Spec.untyped
                       (split LINE_FEED
                          (Utf8.decode_bytes Samples.glued_records)))
    by (apply untyped_by_scan; vm_compute; reflexivity).
  specialize (claim Hlong Huntyped).
  vm_compute in claim; discriminate claim.
Qed.

End NoRecord.

(* ================================================================= *)
(** ** More on what the reader does *)

Section TailReaderMore.
Import Fs.

(** X5.  The calls of one run: [open] first; when it fails nothing more;
    when it succeeds [stat], then at most one [read], then [close], once
    and last, whatever failed in between. *)
Theorem readLastJsonlEntry_calls (fs : FileSystem) (filePath : jsstring) :
  match fs filePath with
  | Rejected _ => fst (readLastJsonlEntry fs filePath) = [Open filePath]
  | Ok fh =>
      exists middle,
        fst (readLastJsonlEntry fs filePath)
          = Open filePath :: Stat :: middle ++ [Close] /\
        (middle = [] \/ exists len pos, middle = [Read len pos])
  end.
Proof.
  rewrite readLastJsonlEntry_cases.
  destruct (fs filePath) as [fh|e]; [|reflexivity].
  destruct (stat_result fh) as [st|e]; cbn zeta.
  - destruct (size st =? 0).
    + exists []; split; [reflexivity | now left].
    + eexists [_]; split; [reflexivity | right; eauto].
  - exists []; split; [reflexivity | now left].
Qed.

(** X6.  The call rejects exactly when the file was opened and closing the
    handle fails, with the error of [close]; no failure of [open], [stat],
    [read] or [JSON.parse] ever reaches the caller. *)
Theorem readLastJsonlEntry_rejects
    (fs : FileSystem) (filePath : jsstring) (e : errno) :
  snd (readLastJsonlEntry fs filePath) = Rejected e <->
  exists fh, fs filePath = Ok fh /\ close_error fh = Some e.
Proof.
  rewrite readLastJsonlEntry_cases.
  destruct (fs filePath) as [fh|e0]; cbn [snd].
  - assert (Hsettle : forall answer : option TailResult,
               match close_error fh with
               | Some e' => Rejected e'
               | None => Ok answer
               end = Rejected e <-> close_error fh = Some e).
    { intros answer; destruct (close_error fh);
        split; intros H; congruence. }
    destruct (stat_result fh) as [st|e1]; cbn zeta;
      [destruct (size st =? 0)|]; cbn [snd]; rewrite Hsettle;
      (split; [intros H; exists fh; auto
              | intros (fh' & [= <-] & H); exact H]).
  - split; [discriminate | intros (fh & [=] & _)].
Qed.

(** The answer on a regular file that is not empty. *)
Lemma regular_answer (fs : FileSystem) (filePath : jsstring)
    (content : list byte) (modified : Date) :
  fs filePath = Ok (regular content modified) ->
  content <> [] ->
  snd (readLastJsonlEntry fs filePath)
  = Ok (Some {| lastType :=
                  scan_all (split LINE_FEED
                              (Utf8.decode_bytes
                                 (tail_window (N.of_nat (length content))
                                    content)));
                modifiedAt := modified |}).
Proof.
  intros Hopen Hcontent.
  rewrite readLastJsonlEntry_cases, Hopen; cbn.
  destruct (N.eqb_spec (N.of_nat (length content)) 0) as [Hz|_];
    [|reflexivity].
  destruct content; [contradiction | cbn in Hz; lia].
Qed.

(** The window of a file that has a prefix of at most what the window
    leaves out. *)
Lemma tail_window_app (pre rest : list byte) :
  N.of_nat (length rest) <= TAIL_READ_BYTES ->
  exists w,
    tail_window (N.of_nat (length (pre ++ rest))) (pre ++ rest) = w ++ rest /\
    exists k, w = skipn k pre.
Proof.
  intros Hrest.
  destruct (tail_window_regular (pre ++ rest)) as [-> _].
  set (k := N.to_nat _).
  assert (Hk : (k <= length pre)%nat).
  { subst k; rewrite length_app; unfold TAIL_READ_BYTES in *; lia. }
  exists (skipn k pre); split; [|now exists k].
  rewrite skipn_app.
  replace (k - length pre)%nat with 0%nat by lia; reflexivity.
Qed.

(** X7.  Two regular files with the same last 4096 bytes and the same
    modification time get the same answer: what precedes the window is
    never looked at. *)
Theorem readLastJsonlEntry_tail_only
    (fs1 fs2 : FileSystem) (path1 path2 : jsstring)
    (pre1 pre2 window : list byte) (modified : Date) :
  fs1 path1 = Ok (regular (pre1 ++ window) modified) ->
  fs2 path2 = Ok (regular (pre2 ++ window) modified) ->
  N.of_nat (length window) = TAIL_READ_BYTES ->
  snd (readLastJsonlEntry fs1 path1) = snd (readLastJsonlEntry fs2 path2).
Proof.
  intros H1 H2 Hw.
  assert (Hwin : forall pre,
             tail_window (N.of_nat (length (pre ++ window))) (pre ++ window)
             = window).
  { intros pre.
    destruct (tail_window_regular (pre ++ window)) as [-> _].
    rewrite skipn_app, length_app.
    unfold TAIL_READ_BYTES in *.
    replace (N.to_nat _) with (length pre) by lia.
    now rewrite skipn_all, Nat.sub_diag. }
  assert (Hne : forall pre, pre ++ window <> []).
  { intros pre E; apply (f_equal (@length byte)) in E.
    rewrite length_app in E; unfold TAIL_READ_BYTES in Hw; cbn in E; lia. }
  rewrite (regular_answer _ _ _ _ H1 (Hne pre1)).
  rewrite (regular_answer _ _ _ _ H2 (Hne pre2)).
  now rewrite !Hwin.
Qed.

Lemma readLastJsonlEntry_tail_only_witness :
  snd (readLastJsonlEntry (Samples.file Samples.glued_records)
         Samples.log_path)
  = snd (readLastJsonlEntry
           (Samples.file (skipn 14 Samples.glued_records))
           Samples.log_path).
Proof.
  apply (readLastJsonlEntry_tail_only _ _ _ _
           (firstn 14 Samples.glued_records) []
           (skipn 14 Samples.glued_records) Samples.modified);
    reflexivity.
Defined.

Lemma scan_all_snoc (lines : list jsstring) (l : jsstring) :
  entry_type l = None -> scan_all (lines ++ [l]) = scan_all lines.
Proof.
  intros Hl; rewrite !scan_all_rev, rev_app_distr; cbn.
  now rewrite Hl.
Qed.

(** X8.  After a record of less than 4096 bytes and its line feed have been
    appended to a log that is empty or ends with a line feed, the reader
    answers with the type of that record, whatever the log held before and
    however long it is. *)
Theorem readLastJsonlEntry_appended_record
    (fs : FileSystem) (filePath : jsstring)
    (old record : list byte) (modified : Date) (t : jsstring) :
  fs filePath = Ok (regular (old ++ record ++ [x0a]) modified) ->
  old = [] \/ (exists before, old = before ++ [x0a]) ->
  N.of_nat (length record) < TAIL_READ_BYTES ->
  ~ In LINE_FEED (Utf8.decode_bytes record) ->
  Spec.typed_record (Utf8.decode_bytes record) t ->
  snd (readLastJsonlEntry fs filePath)
  = Ok (Some {| lastType := Some t; modifiedAt := modified |}).
Proof.
  intros Hopen Hold Hlen Hline Htyped.
  rewrite (regular_answer _ _ _ _ Hopen)
    by (intros E; apply app_eq_nil in E as [_ E];
        apply app_eq_nil in E as [_ E]; discriminate).
  destruct (tail_window_app old (record ++ [x0a])) as (w & -> & k & Hw).
  { rewrite length_app; cbn; unfold TAIL_READ_BYTES in *; lia. }
  assert (Hlines : exists earlier,
             split LINE_FEED (Utf8.decode_bytes (w ++ record ++ [x0a]))
             = earlier ++ Utf8.decode_bytes record :: [[]]).
  { assert (Hsuffix : w = [] \/ exists w', w = w' ++ [x0a]).
    { destruct Hold as [->|[before ->]].
      - left; subst w; now rewrite skipn_nil.
      - subst w; rewrite skipn_app.
        destruct (Nat.le_gt_cases k (length before)) as [Hk|Hk].
        + right; exists (skipn k before).
          replace (k - length before)%nat with 0%nat by lia; reflexivity.
        + left; rewrite skipn_all2 by lia.
          destruct (k - length before)%nat eqn:E; [lia|].
          now rewrite skipn_cons, skipn_nil. }
    destruct Hsuffix as [->|[w' ->]].
    - exists []; cbn [app].
      rewrite decode_bytes_line_feed, split_app_sep.
      now rewrite (split_no_sep _ _ Hline).
    - exists (split LINE_FEED (Utf8.decode_bytes w')).
      rewrite <- app_assoc; cbn [app].
      now rewrite (lines_with_last_line _ _ Hline). }
  destruct Hlines as [earlier ->].
  rewrite (scan_all_last earlier [[]] _ t Htyped); [reflexivity|].
  constructor; [|constructor].
  apply entry_type_untyped; reflexivity.
Qed.

Lemma readLastJsonlEntry_appended_record_witness :
  snd (readLastJsonlEntry
         (Samples.file
            (Samples.typed_then_ticks
               ++ Fs.ascii (lit "{`type`:`done`,`ok`:true}") ++ [x0a]))
         Samples.log_path)
  = Ok (Some {| lastType := Some (str "done");
                modifiedAt := Samples.modified |}).
Proof.
  apply (readLastJsonlEntry_appended_record _ _
           Samples.typed_then_ticks
           (Fs.ascii (lit "{`type`:`done`,`ok`:true}")) Samples.modified).
  - reflexivity.
  - right; exists (removelast Samples.typed_then_ticks).
    vm_compute; reflexivity.
  - reflexivity.
  - vm_compute; intuition discriminate.
  - eexists; split; vm_compute; reflexivity.
Defined.

(** X9.  On a log of at most 4096 bytes, text written after the last line
    feed that does not parse as a typed record, such as a record cut short
    by a crash, changes nothing: the answer is the one the log gets without
    it. *)
Theorem readLastJsonlEntry_torn_tail
    (fs1 fs2 : FileSystem) (path1 path2 : jsstring)
    (complete torn : list byte) (modified : Date) :
  fs1 path1 = Ok (regular (complete ++ x0a :: torn) modified) ->
  fs2 path2 = Ok (regular (complete ++ [x0a]) modified) ->
  N.of_nat (length (complete ++ x0a :: torn)) <= TAIL_READ_BYTES ->
  ~ In LINE_FEED (Utf8.decode_bytes torn) ->
  Spec.untyped (Utf8.decode_bytes torn) ->
  snd (readLastJsonlEntry fs1 path1) = snd (readLastJsonlEntry fs2 path2).
Proof.
  intros H1 H2 Hlen Hline Htorn.
  assert (Hwhole : forall content : list byte,
             N.of_nat (length content) <= TAIL_READ_BYTES ->
             tail_window (N.of_nat (length content)) content = content).
  { intros content Hc.
    destruct (tail_window_regular content) as [-> _].
    replace (N.to_nat _) with 0%nat by lia; reflexivity. }
  rewrite (regular_answer _ _ _ _ H1)
    by (intros E; apply app_eq_nil in E as [_ E]; discriminate).
  rewrite (regular_answer _ _ _ _ H2)
    by (intros E; apply app_eq_nil in E as [_ E]; discriminate).
  rewrite !Hwhole;
    [|rewrite length_app in *; cbn [length] in *; lia | exact Hlen].
  rewrite !decode_bytes_line_feed, !split_app_sep.
  rewrite (split_no_sep _ _ Hline); cbn [Utf8.decode_bytes map Utf8.decode
                                            flat_map split].
  rewrite !scan_all_snoc; [reflexivity | reflexivity|].
  now apply entry_type_untyped.
Qed.

Lemma readLastJsonlEntry_torn_tail_witness :
  snd (readLastJsonlEntry (Samples.file Samples.torn_record)
         Samples.log_path)
  = snd (readLastJsonlEntry
           (Samples.file (Fs.ascii (lit "{`type`:`a`}") ++ [x0a]))
           Samples.log_path).
Proof.
  apply (readLastJsonlEntry_torn_tail _ _ _ _
           (Fs.ascii (lit "{`type`:`a`}"))
           (Fs.ascii (lit "{`type`:`b`")) Samples.modified).
  - reflexivity.
  - reflexivity.
  - vm_compute; discriminate.
  - vm_compute; intuition discriminate.
  - apply entry_type_untyped; reflexivity.
Defined.

End TailReaderMore.

(* ================================================================= *)
(** ** White space around a line *)

Section Padding.

Lemma trimStart_spaces (ws s : jsstring) :
  Forall (fun c => is_trim_space c = true) ws ->
  trimStart (ws ++ s) = trimStart s.
Proof.
  induction 1 as [|c ws Hc _ IH]; [reflexivity|].
  cbn [app trimStart]; now rewrite Hc.
Qed.

Lemma trimStart_app (s t : jsstring) :
  trimStart s <> [] -> trimStart (s ++ t) = trimStart s ++ t.
Proof.
  induction s as [|c s IH]; cbn [app trimStart]; [contradiction|].
  destruct (is_trim_space c); [exact IH | reflexivity].
Qed.

Lemma trimStart_nil_spaces (s : jsstring) :
  trimStart s = [] -> Forall (fun c => is_trim_space c = true) s.
Proof.
  induction s as [|c s IH]; cbn [trimStart]; [constructor|].
  destruct (is_trim_space c) eqn:Hc; [|discriminate].
  intros H; constructor; auto.
Qed.

Lemma trimEnd_spaces (s ws : jsstring) :
  Forall (fun c => is_trim_space c = true) ws ->
  trimEnd (s ++ ws) = trimEnd s.
Proof.
  intros Hws; unfold trimEnd.
  rewrite rev_app_distr, trimStart_spaces; [reflexivity|].
  now apply Forall_rev.
Qed.

(** [trim] does not see white space added at either end. *)
Lemma trim_padded (before line after : jsstring) :
  Forall (fun c => is_trim_space c = true) before ->
  Forall (fun c => is_trim_space c = true) after ->
  trim (before ++ line ++ after) = trim line.
Proof.
  intros Hb Ha; unfold trim.
  rewrite trimStart_spaces by exact Hb.
  destruct (trimStart line) as [|c rest] eqn:E.
  - apply trimStart_nil_spaces in E.
    rewrite <- (app_nil_r (line ++ after)), trimStart_spaces;
      [reflexivity | now apply Forall_app].
  - rewrite trimStart_app, E by congruence.
    now apply trimEnd_spaces.
Qed.

Lemma entry_type_by_trim (l l' : jsstring) :
  trim l = trim l' -> entry_type l = entry_type l'.
Proof.
  intros H; unfold entry_type.
  destruct l as [|c l], l' as [|c' l']; [reflexivity| | |];
    cbv zeta; [rewrite <- H | rewrite H | rewrite H]; reflexivity.
Qed.

(** X10.  White space around a line makes no difference to what a turn of
    the loop finds in it: a carriage return before the line feed, an
    indentation or a byte order mark in front of a record do not hide the
    record, and do not turn anything else into one. *)
Theorem entry_type_padded (before line after : jsstring) :
  Shape.white before ->
  Shape.white after ->
  entry_type (before ++ line ++ after) = entry_type line.
Proof.
  unfold Shape.white; intros Hb Ha.
  apply entry_type_by_trim, trim_padded; assumption.
Qed.

Lemma entry_type_padded_witness :
  entry_type ([0xFEFF; SPACE] ++ lit "{`type`:`a`}" ++ [CARRIAGE_RETURN])
  = Some (str "a").
Proof.
  refine (eq_trans
            (entry_type_padded [0xFEFF; SPACE] (lit "{`type`:`a`}")
               [CARRIAGE_RETURN] _ _) _);
    [repeat constructor | repeat constructor | reflexivity].
Defined.

End Padding.

(* ================================================================= *)
(** ** Issue identifiers, URLs and labels *)

Section Identifiers.
Import Tracker.

Lemma digits_all (n : jsstring) : Shape.all_digits n -> Json.digits n = (n, []).
Proof.
  induction 1 as [|c n Hc _ IH]; [reflexivity|].
  cbn [Json.digits]; now rewrite Hc, IH.
Qed.

Lemma digits_fst_all (s : jsstring) : Shape.all_digits (fst (Json.digits s)).
Proof.
  induction s as [|c s IH]; cbn [Json.digits]; [constructor|].
  destruct (Json.is_digit c) eqn:Hc; [|constructor].
  destruct (Json.digits s) as [ds rest]; cbn in *.
  constructor; assumption.
Qed.

Lemma digits_fst_prefix (s : jsstring) :
  s = fst (Json.digits s) ++ snd (Json.digits s).
Proof.
  induction s as [|c s IH]; cbn [Json.digits]; [reflexivity|].
  destruct (Json.is_digit c); [|reflexivity].
  destruct (Json.digits s) as [ds rest]; cbn in *; now rewrite <- IH.
Qed.

Lemma digit_not_hash (c : code_unit) :
  Json.is_digit c = true -> (c =? 35) = false /\ (c =? 104) = false.
Proof.
  unfold Json.is_digit; intros [H1 H2]%andb_true_iff.
  apply N.leb_le in H1, H2; split; apply N.eqb_neq; lia.
Qed.

(** What one attempt of the expression finds. *)
Lemma issues_at_some (s group : jsstring) :
  issues_at s = Some group <->
  exists rest, s = str "/issues/" ++ rest /\
               group = fst (Json.digits rest) /\ group <> [].
Proof.
  unfold issues_at.
  destruct (startsWith s (str "/issues/")) eqn:E.
  - apply startsWith_spec in E as [rest ->].
    change (skipn 8 (str "/issues/" ++ rest)) with rest.
    destruct (Json.digits rest) as [[|d ds] tail] eqn:Ed; split.
    + discriminate.
    + intros (rest' & Hr & -> & Hne).
      apply app_inv_head in Hr as <-; rewrite Ed in Hne; now cbn in Hne.
    + intros [= <-]; exists rest; rewrite Ed; repeat split; discriminate.
    + intros (rest' & Hr & -> & _).
      apply app_inv_head in Hr as <-; now rewrite Ed.
  - split; [discriminate|].
    intros (rest & -> & _).
    assert (startsWith (str "/issues/" ++ rest) (str "/issues/") = true)
      by (apply startsWith_spec; now exists rest).
    congruence.
Qed.

Lemma issues_number_unfold (s : jsstring) :
  issues_number s =
    match issues_at s with
    | Some ds => Some ds
    | None => match s with [] => None | _ :: r => issues_number r end
    end.
Proof. destruct s; reflexivity. Qed.

(** What a match of the expression is: digits that follow the literal
    somewhere in the text. *)
Lemma issues_number_some (s group : jsstring) :
  issues_number s = Some group ->
  group <> [] /\ Shape.all_digits group /\
  exists before after, s = before ++ str "/issues/" ++ group ++ after.
Proof.
  induction s as [|c s IH]; rewrite issues_number_unfold.
  - destruct (issues_at []) eqn:E; [|discriminate].
    apply issues_at_some in E as (rest & [=] & _).
  - destruct (issues_at (c :: s)) as [g|] eqn:E.
    + intros [= <-].
      apply issues_at_some in E as (rest & -> & -> & Hne).
      split; [exact Hne|]; split; [apply digits_fst_all|].
      exists [], (snd (Json.digits rest)); cbn [app].
      now rewrite <- digits_fst_prefix.
    + intros H; apply IH in H as (Hne & Hd & before & after & ->).
      repeat split; auto.
      now exists (c :: before), after.
Qed.

(** An attempt that fails on [pre] also fails when text that begins with
    the literal is put behind [pre]: the two occurrences cannot overlap on a
    digit. *)
Lemma issues_at_before_literal (pre rest : jsstring) :
  pre <> [] ->
  issues_at pre = None ->
  issues_at (pre ++ str "/issues/" ++ rest) = None.
Proof.
  intros Hne Hpre.
  destruct (issues_at (pre ++ str "/issues/" ++ rest)) as [g|] eqn:E;
    [exfalso|reflexivity].
  apply issues_at_some in E as (r & Hr & -> & Hg).
  destruct pre as [|c0 [|c1 [|c2 [|c3 [|c4 [|c5 [|c6 [|c7 [|c8 pre]]]]]]]]];
    [contradiction|..]; cbn in Hr; inversion Hr; subst;
    try (now cbn in Hg).
  assert (Hsome : issues_at (str "/issues/" ++ c8 :: pre)
                  = Some (fst (Json.digits (c8 :: pre))));
    [|cbn in Hsome, Hpre; congruence].
  apply issues_at_some; exists (c8 :: pre); repeat split.
  cbn [app Json.digits] in *.
  destruct (Json.is_digit c8); [|now cbn in Hg].
  destruct (Json.digits pre); cbn; discriminate.
Qed.

Lemma issues_number_after (pre n : jsstring) :
  issues_number pre = None ->
  n <> [] -> Shape.all_digits n ->
  issues_number (pre ++ str "/issues/" ++ n) = Some n.
Proof.
  intros Hpre Hne Hn.
  assert (Hat : issues_at (str "/issues/" ++ n) = Some n).
  { apply issues_at_some; exists n.
    rewrite (digits_all n Hn); repeat split; assumption. }
  induction pre as [|c pre IH].
  - cbn [app]; now rewrite issues_number_unfold, Hat.
  - rewrite issues_number_unfold in Hpre.
    destruct (issues_at (c :: pre)) eqn:E; [discriminate|].
    rewrite issues_number_unfold, issues_at_before_literal by congruence.
    cbn [app]; auto.
Qed.

Lemma issues_number_slash (s group : jsstring) :
  issues_number s = Some group -> In 47 s.
Proof.
  intros H; apply issues_number_some in H as (_ & _ & before & after & ->).
  apply in_or_app; right; now left.
Qed.

Lemma digits_not_http (n : jsstring) :
  Shape.all_digits n -> startsWith n (str "http") = false /\ strip_hash n = n.
Proof.
  intros Hn; destruct Hn as [|c r Hc _]; [split; reflexivity|].
  apply digit_not_hash in Hc as [Hs Hh]; cbn; now rewrite Hh, Hs.
Qed.

(** X11.  What [extractIssueNumber] returns is the identifier itself, or
    the identifier without its leading number sign, or, for an identifier
    that begins with http only, a non-empty run of digits that follows the
    text /issues/ in it. *)
Theorem extractIssueNumber_result (identifier : jsstring) :
  let num := extractIssueNumber identifier in
  num = identifier \/
  identifier = str "#" ++ num \/
  (startsWith identifier (str "http") = true /\
   num <> [] /\ Shape.all_digits num /\
   exists before after,
     identifier = before ++ str "/issues/" ++ num ++ after).
Proof.
  cbv zeta; unfold extractIssueNumber.
  destruct (startsWith identifier (str "http")) eqn:Hhttp.
  - destruct (issues_number identifier) as [group|] eqn:E; [|now left].
    right; right; split; [reflexivity|].
    now apply issues_number_some.
  - destruct identifier as [|c r]; [now left|]; cbn [strip_hash].
    destruct (N.eqb_spec c 35) as [->|_]; [right; left; reflexivity|now left].
Qed.

Lemma issueUrl_http (identifier : jsstring) (project : ProjectConfig) :
  startsWith (issueUrl identifier project) (str "http") = true.
Proof.
  unfold issueUrl.
  destruct (startsWith identifier (str "http")) eqn:E; [exact E|].
  reflexivity.
Qed.

(** X13.  [issueUrl] always returns something that begins with http, and
    applying it again, for whatever project, changes nothing: an
    identifier that is a URL already is passed through. *)
Theorem issueUrl_normal_form
    (identifier : jsstring) (project project' : ProjectConfig) :
  startsWith (issueUrl identifier project) (str "http") = true /\
  issueUrl (issueUrl identifier project) project'
  = issueUrl identifier project.
Proof.
  split; [apply issueUrl_http|].
  unfold issueUrl at 1; now rewrite issueUrl_http.
Qed.

Lemma issueUrl_number (n : jsstring) (project : ProjectConfig) :
  Shape.all_digits n ->
  issueUrl n project
  = str "https://github.com/" ++ repo project ++ str "/issues/" ++ n /\
  issueUrl (str "#" ++ n) project
  = str "https://github.com/" ++ repo project ++ str "/issues/" ++ n.
Proof.
  intros Hn; unfold issueUrl.
  destruct (digits_not_http n Hn) as [-> ->]; split; reflexivity.
Qed.

(** X14.  For an issue number [n], written with or without the number
    sign, the label of the URL that [issueUrl] builds is the number sign
    and [n], provided the text /issues/ with a digit behind it does not
    occur in https://github.com/ followed by the name of the repository. *)
Theorem issueLabel_issueUrl
    (n : jsstring) (project project' : ProjectConfig) :
  n <> [] -> Shape.all_digits n ->
  issues_number (str "https://github.com/" ++ repo project) = None ->
  issueLabel (issueUrl n project) project' = str "#" ++ n /\
  issueLabel (issueUrl (str "#" ++ n) project) project' = str "#" ++ n.
Proof.
  intros Hne Hn Hrepo.
  destruct (issueUrl_number n project Hn) as [-> ->].
  unfold issueLabel.
  rewrite app_assoc, (issues_number_after _ n Hrepo Hne Hn).
  split; reflexivity.
Qed.

Lemma issueLabel_issueUrl_witness :
  issueLabel (issueUrl (str "#42") Worlds.project)
    Worlds.project = str "#42".
Proof.
  apply (issueLabel_issueUrl (str "42") Worlds.project);
    [discriminate | repeat constructor | reflexivity].
Defined.

(** X12.  The three ways to name issue [n] give the same branch: the bare
    number, the number behind a number sign, and the URL that [issueUrl]
    builds for it (under the proviso of X14 on the repository). *)
Theorem branchName_forms
    (n : jsstring) (project project' : ProjectConfig) :
  n <> [] -> Shape.all_digits n ->
  issues_number (str "https://github.com/" ++ repo project) = None ->
  branchName n project' = str "feat/issue-" ++ n /\
  branchName (str "#" ++ n) project' = str "feat/issue-" ++ n /\
  branchName (issueUrl n project) project' = str "feat/issue-" ++ n.
Proof.
  intros Hne Hn Hrepo.
  destruct (digits_not_http n Hn) as [Hhttp Hstrip].
  unfold branchName, extractIssueNumber.
  rewrite Hhttp, Hstrip; repeat split.
  rewrite issueUrl_http.
  destruct (issueUrl_number n project Hn) as [-> _].
  now rewrite app_assoc, (issues_number_after _ n Hrepo Hne Hn).
Qed.

Lemma branchName_forms_witness :
  branchName (str "https://github.com/acme/agents/issues/42")
    Worlds.project = str "feat/issue-42".
Proof.
  apply (branchName_forms (str "42") Worlds.project);
    [discriminate | repeat constructor | reflexivity].
Defined.

(** X15.  The label of a URL is never empty unless the URL is, and is
    either the URL itself or a number sign with text behind it.  Without an
    issue number in it, a URL that ends with a slash is returned as it is,
    and a text without any slash gets the number sign in front. *)
Theorem issueLabel_fallback (url : jsstring) (project : ProjectConfig) :
  (url <> [] -> issueLabel url project <> []) /\
  (issueLabel url project = url \/
   exists x, x <> [] /\ issueLabel url project = str "#" ++ x) /\
  (forall u, url = u ++ str "/" -> issues_number url = None ->
             issueLabel url project = url) /\
  (url <> [] -> ~ In 47 url -> issueLabel url project = str "#" ++ url).
Proof.
  unfold issueLabel.
  split; [|split; [|split]].
  - intros Hne.
    destruct (issues_number url); [discriminate|].
    destruct (nth _ _ _); [exact Hne | discriminate].
  - destruct (issues_number url) as [g|] eqn:E.
    + right; exists g; split; [|reflexivity].
      now apply issues_number_some in E.
    + destruct (nth _ _ _) as [|c l]; [now left|].
      right; exists (c :: l); split; [discriminate|reflexivity].
  - intros u -> ->.
    change (u ++ str "/") with (u ++ 47 :: []).
    rewrite split_app_sep, length_app; cbn [split length].
    rewrite Nat.add_sub, app_nth2, Nat.sub_diag by lia; reflexivity.
  - intros Hne Hslash.
    destruct (issues_number url) as [g|] eqn:E;
      [apply issues_number_slash in E; contradiction|].
    rewrite (split_no_sep _ _ Hslash); cbn.
    destruct url; [contradiction|reflexivity].
Qed.

Lemma issueLabel_fallback_witness :
  issueLabel (str "https://github.com/acme/agents/pulls/")
    Worlds.project
  = str "https://github.com/acme/agents/pulls/" /\
  issueLabel (str "42") Worlds.project = str "#42".
Proof.
  split.
  - apply (issueLabel_fallback (str "https://github.com/acme/agents/pulls/")
             Worlds.project)
      with (u := str "https://github.com/acme/agents/pulls");
      reflexivity.
  - apply (issueLabel_fallback (str "42") Worlds.project);
      [discriminate | vm_compute; intuition discriminate].
Defined.

End Identifiers.

(* ================================================================= *)
(** ** Updating an issue *)

Section UpdateIssue.
Import Tracker.

Variable World : Type.
Variable execFile :
  jsstring -> list jsstring -> World -> World * (jsstring + jsstring).

Ltac run_commands :=
  repeat match goal with
    | |- context [execFile ?f ?args ?w] =>
        destruct (execFile f args w) as [? [?|?]]
    end.

(** X16.  An update that asks for no state other than [in_progress] (or
    none), no label, no assignee and no comment runs no command at all: the
    world is left as it was and the call returns. *)
Theorem updateIssue_nothing_to_do
    (identifier : jsstring) (update : IssueUpdate) (project : ProjectConfig)
    (w : World) :
  text (state update) <> str "closed" ->
  text (state update) <> str "open" ->
  some_labels (labels update) = false ->
  truthy (assignee update) = false ->
  truthy (comment update) = false ->
  updateIssue World execFile identifier update project w = (w, [], Return tt).
Proof.
  intros Hclosed Hopen Hlabels Hassignee Hcomment.
  unfold updateIssue, when.
  rewrite Hlabels, Hassignee, Hcomment.
  destruct (Js.eqb (text (state update)) (str "closed")) eqn:E1;
    [apply eqb_eq in E1; contradiction|].
  destruct (Js.eqb (text (state update)) (str "open")) eqn:E2;
    [apply eqb_eq in E2; contradiction|].
  reflexivity.
Qed.

(** X17.  Whatever is asked and whatever the commands answer, an update
    runs at most four commands, and each of them is [issue], then one of
    [close], [reopen], [edit] and [comment], then the identifier, then
    [--repo] and the repository of the project: no command is aimed at
    another issue or another repository.  An error that is thrown begins
    with [gh issue]. *)
Theorem updateIssue_commands
    (identifier : jsstring) (update : IssueUpdate) (project : ProjectConfig)
    (w : World) :
  let '(_, ran, result) :=
    updateIssue World execFile identifier update project w in
  (length ran <= 4)%nat /\
  Forall (fun args =>
            exists verb more,
              args = str "issue" :: verb :: identifier
                       :: str "--repo" :: repo project :: more /\
              In verb [str "close"; str "reopen"; str "edit"; str "comment"])
         ran /\
  forall message,
    result = Throw message -> startsWith message (str "gh issue ") = true.
Proof.
  unfold updateIssue, when, bind, gh, ret.
  destruct (Js.eqb (text (state update)) (str "closed"));
    [|destruct (Js.eqb (text (state update)) (str "open"))];
    destruct (some_labels (labels update)),
             (truthy (assignee update)), (truthy (comment update));
    run_commands; cbn [app length];
    (split; [lia|split;
       [repeat (apply Forall_cons;
                [eexists _, _; split; [reflexivity | simpl; auto 10]|]);
        apply Forall_nil
       |intros message [= <-]; reflexivity]]).
Qed.

(** X18.  When closing the issue fails, the update stops there: the error
    names the command, and no label, assignee or comment is sent. *)
Theorem updateIssue_close_fails
    (identifier : jsstring) (update : IssueUpdate) (project : ProjectConfig)
    (w w' : World) (cause : jsstring) :
  let close := [str "issue"; str "close"; identifier;
                str "--repo"; repo project] in
  text (state update) = str "closed" ->
  execFile (str "gh") close w = (w', inr cause) ->
  updateIssue World execFile identifier update project w
  = (w', [close],
     Throw (str "gh issue close " ++ identifier ++ str " failed: " ++ cause)).
Proof.
  intros close Hstate Hfail; subst close.
  assert (Heq : Js.eqb (text (state update)) (str "closed") = true)
    by now apply eqb_eq.
  unfold updateIssue, bind, gh.
  rewrite Heq, Hfail.
  cbn; now rewrite <- ?app_assoc.
Qed.

End UpdateIssue.

Section UpdateIssueSamples.
Import Tracker.

Lemma updateIssue_nothing_to_do_witness :
  updateIssue nat Worlds.failing (str "42")
    {| state := Some (str "in_progress"); labels := Some [];
       assignee := None; comment := Some [] |}
    Worlds.project 0%nat
  = (0%nat, [], Return tt).
Proof.
  apply updateIssue_nothing_to_do; try reflexivity; discriminate.
Defined.

Lemma updateIssue_close_fails_witness :
  updateIssue nat Worlds.failing (str "42")
    {| state := Some (str "closed"); labels := Some [str "bug"];
       assignee := None; comment := Some (str "done") |}
    Worlds.project 0%nat
  = (1%nat,
     [[str "issue"; str "close"; str "42"; str "--repo"; str "acme/agents"]],
     Throw (str "gh issue close 42 failed: HTTP 404")).
Proof.
  apply (updateIssue_close_fails nat Worlds.failing (str "42")
           {| state := Some (str "closed"); labels := Some [str "bug"];
              assignee := None; comment := Some (str "done") |}
           Worlds.project 0%nat 1%nat (str "HTTP 404"));
    reflexivity.
Defined.
Lemma updateIssue_commands_witness :
  snd (fst (updateIssue nat Worlds.succeeding (str "42")
              {| state := Some (str "open"); labels := Some [str "bug"];
                 assignee := Some (str "ann"); comment := None |}
              Worlds.project 0%nat))
  = [[str "issue"; str "reopen"; str "42"; str "--repo"; str "acme/agents"];
     [str "issue"; str "edit"; str "42"; str "--repo"; str "acme/agents";
      str "--add-label"; str "bug"];
     [str "issue"; str "edit"; str "42"; str "--repo"; str "acme/agents";
      str "--add-assignee"; str "ann"]] /\
  (3 <= 4)%nat.
Proof.
  split; [reflexivity|].
  exact (proj1 (updateIssue_commands nat Worlds.succeeding (str "42")
                  {| state := Some (str "open"); labels := Some [str "bug"];
                     assignee := Some (str "ann"); comment := None |}
                  Worlds.project 0%nat)).
Defined.

End UpdateIssueSamples.
